(** * SecureHub: a shallow embedding of the client-side security core

    The development follows the JavaScript sources under [src/modules]:

    - [security-manager.js]      : classes [RateLimiter], [SessionManager]
    - [key-cache.js]             : classes [KeyCache], [CachedCrypto] (and
                                   the crypto worker script stored in the
                                   same file)
    - [zero-knowledge.js]        : class [ZeroKnowledge]
    - [crypto-worker-manager.js] : class [CryptoWorkerManager]
    - [e2ee-crypto.js]           : class [E2EECrypto]

    Conventions of the embedding.

    - A JavaScript number that holds a clock reading, a counter or a length
      is an integer far below 2^53, where double arithmetic is exact; it is
      modelled as [Z].
    - A JavaScript string is its sequence of UTF-16 code units, a [list Z]
      (what [charCodeAt] reads).
    - A [Map] keyed by strings is a [gmap]; a method that mutates [this]
      takes the object and returns the new one.
    - [Date.now()] and [crypto.getRandomValues] are inputs of the function
      that calls them, one argument per call.
    - A [throw] inside a [try] is a value of an error type, and the [catch]
      is the function that maps it to the returned value.
    - An [async] function runs within the call up to the first [await]
      that suspends it; what comes after runs in a turn of its own, on the
      state the object has by then.
    - A call takes a bounded number of arguments, the bound being the
      engine's: a spread of a longer array throws a [RangeError]. *)

From Stdlib Require Import ZArith Lia List Bool String Ascii.
From stdpp Require Import base option list gmap.

Local Open Scope Z_scope.

(** ** JavaScript preliminaries *)

Module JS.

Abbreviation jsstring := (list Z) (only parsing).

(** The code units of an ASCII literal. *)
Definition str (s : string) : jsstring :=
  List.map (fun a => Z.of_N (N_of_ascii a)) (list_ascii_of_string s).
Arguments str : simpl never.

(** [Math.ceil(x / d)] for integers [x] and a positive integer [d]. *)
Definition ceil_div (x d : Z) : Z := - ((- x) / d).

(** The character of a digit value below 36, as [Number.prototype.toString]
    writes it: [0-9] then [a-z]. *)
Definition digit_char (d : Z) : Z := if d <? 10 then 48 + d else 87 + d.

Fixpoint digits_of (fuel : nat) (radix n : Z) (acc : jsstring) : jsstring :=
  match fuel with
  | O => acc
  | S fuel' =>
      let acc' := digit_char (n mod radix) :: acc in
      if n / radix =? 0 then acc' else digits_of fuel' radix (n / radix) acc'
  end.

(** [n.toString(radix)] for an integer [n]: a minus sign for a negative
    number, then the digits of the magnitude. A number below [2^k] has at
    most [k] digits in any radix from 2 up, which bounds the recursion. *)
Definition toStringRadix (radix n : Z) : jsstring :=
  let m := Z.abs n in
  let ds := digits_of (S (Z.to_nat (Z.log2 m))) radix m [] in
  if n <? 0 then 45 :: ds else ds.

Definition toString (n : Z) : jsstring := toStringRadix 10 n.

(** [Array.prototype.join(sep)] on an array of numbers. *)
Fixpoint join (sep : jsstring) (l : list Z) : jsstring :=
  match l with
  | [] => []
  | [x] => toString x
  | x :: rest => toString x ++ sep ++ join sep rest
  end.

(** [ToInt32]: the value modulo 2^32 in the signed range. *)
Definition toInt32 (z : Z) : Z := (z + 2147483648) mod 4294967296 - 2147483648.

(** [b.toString(16).padStart(2, '0')] *)
Definition hexByte (b : Z) : jsstring :=
  let s := toStringRadix 16 b in
  if Nat.ltb (length s) 2 then str "0" ++ s else s.

(** [array.map(b => b.toString(16).padStart(2, '0')).join('')] *)
Definition hex (array : list Z) : jsstring := concat (List.map hexByte array).

(** Code that may throw: the thrown value on the left, the result on the
    right, and sequencing that stops at the first throw. *)
#[global] Instance throw_bind {E} : MBind (sum E) :=
  fun A B f x => match x with inl e => inl e | inr a => f a end.

(** A salt argument: a [Uint8Array] or a string. *)
Inductive salt :=
  | SaltBytes (bytes : list Z)
  | SaltString (s : jsstring).

(** The white space and line terminator code units that [parseInt] skips
    at the start of its argument. *)
Definition isStrWhiteSpace (c : Z) : bool :=
  bool_decide (c ∈ [9; 10; 11; 12; 13; 32; 160; 5760; 8192; 8193; 8194; 8195;
                    8196; 8197; 8198; 8199; 8200; 8201; 8202; 8232; 8233;
                    8239; 8287; 12288; 65279]).

Fixpoint trimStart (s : jsstring) : jsstring :=
  match s with
  | c :: rest => if isStrWhiteSpace c then trimStart rest else s
  | [] => []
  end.

(** The value of a hexadecimal digit. *)
Definition hexDigit (c : Z) : option Z :=
  if (48 <=? c) && (c <=? 57) then Some (c - 48)
  else if (97 <=? c) && (c <=? 102) then Some (c - 87)
  else if (65 <=? c) && (c <=? 70) then Some (c - 55)
  else None.

(** The value of the longest prefix of hexadecimal digits, after [acc]. *)
Fixpoint hexValue (s : jsstring) (acc : Z) : Z :=
  match s with
  | c :: rest =>
      match hexDigit c with
      | Some d => hexValue rest (acc * 16 + d)
      | None => acc
      end
  | [] => acc
  end.

(** [parseInt(s, 16)]: leading white space is skipped, then a sign, then
    a prefix [0x] or [0X]; the digits that follow are read as far as they
    go, and [None] is the [NaN] returned when there is none. *)
Definition parseInt16 (s : jsstring) : option Z :=
  let s := trimStart s in
  let '(sign, s) :=
    match s with
    | c :: rest => if c =? 45 then (-1, rest)
                   else if c =? 43 then (1, rest) else (1, s)
    | [] => (1, s)
    end in
  let s :=
    match s with
    | c :: x :: rest =>
        if (c =? 48) && ((x =? 120) || (x =? 88)) then rest else s
    | _ => s
    end in
  match s with
  | c :: _ =>
      match hexDigit c with
      | Some _ => Some (sign * hexValue s 0)
      | None => None
      end
  | [] => None
  end.

(** The element a [Uint8Array] stores for a number: [NaN] gives 0, an
    integer is taken modulo 256. *)
Definition toUint8 (n : option Z) : Z :=
  match n with Some n => n mod 256 | None => 0 end.

End JS.

Import JS.

(** ** security-manager.js: class RateLimiter *)

Module RateLimiter.

Record t := mk {
  attempts : gmap jsstring (list Z);
  maxAttempts : Z;
  windowMs : Z;
  blockedUntil : gmap jsstring Z
}.

(** [constructor(maxAttempts = 5, windowMs = 300000)] *)
Definition new (maxAttempts windowMs : Z) : t :=
  mk ∅ maxAttempts windowMs ∅.

(** The object [checkLimit] returns; a missing property is [None]. *)
Record result := mkResult {
  allowed : bool;
  retryAfter : option Z;
  attemptsLeft : option Z;
  message : option jsstring
}.

(** [blockedUntil && now < blockedUntil]: the lookup is [undefined] or a
    number, and a number is truthy when it is not zero. The deadline of the
    block in force, if there is one. *)
Definition activeBlock (b : option Z) (now : Z) : option Z :=
  match b with
  | Some u => if negb (u =? 0) && (now <? u) then Some u else None
  | None => None
  end.

(** [userAttempts.filter(time => now - time < this.windowMs)] *)
Definition recent (windowMs now : Z) (l : list Z) : list Z :=
  List.filter (fun time => now - time <? windowMs) l.

Definition checkLimit (rl : t) (identifier : jsstring) (now : Z) : result * t :=
  match activeBlock (blockedUntil rl !! identifier) now with
  | Some blockedUntil =>
    let secs := ceil_div (blockedUntil - now) 1000 in
    (mkResult false (Some secs) None
       (Some (str "Muitas tentativas. Tente novamente em " ++ toString secs ++ str "s")),
     rl)
  | None =>
    let userAttempts := default [] (attempts rl !! identifier) in
    let recentAttempts := recent (windowMs rl) now userAttempts in
    if Z.of_nat (length recentAttempts) >=? maxAttempts rl then
      let blockUntil := now + windowMs rl in
      let secs := ceil_div (windowMs rl) 1000 in
      (mkResult false (Some secs) None
         (Some (str "Limite de tentativas excedido. Aguarde " ++ toString secs ++ str "s")),
       mk (attempts rl) (maxAttempts rl) (windowMs rl)
          (<[identifier := blockUntil]> (blockedUntil rl)))
    else
      let recentAttempts' := recentAttempts ++ [now] in
      (mkResult true None
         (Some (maxAttempts rl - Z.of_nat (length recentAttempts'))) None,
       mk (<[identifier := recentAttempts']> (attempts rl)) (maxAttempts rl)
          (windowMs rl) (blockedUntil rl))
  end.

Definition reset (rl : t) (identifier : jsstring) : t :=
  mk (delete identifier (attempts rl)) (maxAttempts rl) (windowMs rl)
     (delete identifier (blockedUntil rl)).

(** A run of [checkLimit] calls on one identifier, at the given clock
    readings: the results in call order and the final limiter. *)
Fixpoint checkLimits (rl : t) (identifier : jsstring) (clock : list Z)
  : list result * t :=
  match clock with
  | [] => ([], rl)
  | now :: clock' =>
      let '(r, rl1) := checkLimit rl identifier now in
      let '(rs, rl2) := checkLimits rl1 identifier clock' in
      (r :: rs, rl2)
  end.

(** Any two clock readings of a run are less than a window apart. *)
Definition within (w : Z) (clock : list Z) : Prop :=
  forall a b, a ∈ clock -> b ∈ clock -> b - a < w.

(** The object [getStatus] returns; a missing property is [None]. *)
Record status := mkStatus {
  blocked : bool;
  statusRetryAfter : option Z;
  statusAttempts : option Z;
  statusAttemptsLeft : option Z
}.

Definition getStatus (rl : t) (identifier : jsstring) (now : Z) : status :=
  match activeBlock (blockedUntil rl !! identifier) now with
  | Some blockedUntil =>
      mkStatus true (Some (ceil_div (blockedUntil - now) 1000)) None None
  | None =>
      let attempts := default [] (attempts rl !! identifier) in
      let recentAttempts := recent (windowMs rl) now attempts in
      mkStatus false None (Some (Z.of_nat (length recentAttempts)))
               (Some (maxAttempts rl - Z.of_nat (length recentAttempts)))
  end.

(** A call on the limiter, and a sequence of calls on any identifiers. *)
Inductive call :=
  | CheckLimit (identifier : jsstring) (now : Z)
  | Reset (identifier : jsstring).

Definition perform (rl : t) (c : call) : t :=
  match c with
  | CheckLimit identifier now => (checkLimit rl identifier now).2
  | Reset identifier => reset rl identifier
  end.

Definition performAll (rl : t) (calls : list call) : t :=
  fold_left perform calls rl.

End RateLimiter.

(** ** security-manager.js: class SessionManager

    The session object together with the part of the page it acts on: the
    timers it has pending and the activity listeners it has registered on
    [document].  A timer handle is an integer greater than zero, so a handle
    kept in [timeoutId] or [warningId] is truthy and [null] is [None].  The
    delay of a timer is converted as the platform does it, to a signed
    32-bit integer, and a negative one counts as zero.  [Date.now()] is an
    argument of every function that reads the clock; times are whole
    milliseconds.  Console output is left out. *)

Module SessionManager.

(** A callback given to [start].  The callback the vault registers for the
    timeout locks the vault, which calls [stop] on this same session;
    [callsStop] says whether a callback does that.  It does nothing else to
    the session. *)
Record callback := mkCallback { callbackName : nat; callsStop : bool }.

(** The two closures [resetTimeout] hands to the platform. *)
Inductive timerKind := WarningTimer | TimeoutTimer.

(** A call of a callback, with its argument. *)
Inductive call :=
  | CalledTimeout (f : callback)
  | CalledWarning (f : callback) (secondsLeft : Z).

Record t := mk {
  timeoutMs : Z;
  lastActivity : Z;
  timeoutId : option positive;
  warningId : option positive;
  onTimeout : option callback;
  onWarning : option callback;
  isActive : bool;
  warningTime : Z;
  (* the arrow function [start] creates, by the order of its creation *)
  activityHandler : option nat;
  (* the page: pending timers with their kind and due time, the next
     handle, the handlers registered for the five activity events, the next
     function identity, and the callbacks called so far *)
  timers : gmap positive (timerKind * Z);
  nextTimer : positive;
  listeners : list nat;
  nextHandler : nat;
  calls : list call
}.

Definition set_timeoutMs (ms : Z) (s : t) : t :=
  mk ms (lastActivity s) (timeoutId s) (warningId s) (onTimeout s) (onWarning s) (isActive s) (warningTime s) (activityHandler s) (timers s) (nextTimer s) (listeners s) (nextHandler s) (calls s).

Definition set_lastActivity (now : Z) (s : t) : t :=
  mk (timeoutMs s) now (timeoutId s) (warningId s) (onTimeout s) (onWarning s) (isActive s) (warningTime s) (activityHandler s) (timers s) (nextTimer s) (listeners s) (nextHandler s) (calls s).

Definition set_timeoutId (h : option positive) (s : t) : t :=
  mk (timeoutMs s) (lastActivity s) h (warningId s) (onTimeout s) (onWarning s) (isActive s) (warningTime s) (activityHandler s) (timers s) (nextTimer s) (listeners s) (nextHandler s) (calls s).

Definition set_warningId (h : option positive) (s : t) : t :=
  mk (timeoutMs s) (lastActivity s) (timeoutId s) h (onTimeout s) (onWarning s) (isActive s) (warningTime s) (activityHandler s) (timers s) (nextTimer s) (listeners s) (nextHandler s) (calls s).

Definition set_isActive (b : bool) (s : t) : t :=
  mk (timeoutMs s) (lastActivity s) (timeoutId s) (warningId s) (onTimeout s) (onWarning s) b (warningTime s) (activityHandler s) (timers s) (nextTimer s) (listeners s) (nextHandler s) (calls s).

Definition set_timers (m : gmap positive (timerKind * Z)) (s : t) : t :=
  mk (timeoutMs s) (lastActivity s) (timeoutId s) (warningId s) (onTimeout s) (onWarning s) (isActive s) (warningTime s) (activityHandler s) m (nextTimer s) (listeners s) (nextHandler s) (calls s).

Definition set_listeners (l : list nat) (s : t) : t :=
  mk (timeoutMs s) (lastActivity s) (timeoutId s) (warningId s) (onTimeout s) (onWarning s) (isActive s) (warningTime s) (activityHandler s) (timers s) (nextTimer s) l (nextHandler s) (calls s).

Definition set_calls (l : list call) (s : t) : t :=
  mk (timeoutMs s) (lastActivity s) (timeoutId s) (warningId s) (onTimeout s) (onWarning s) (isActive s) (warningTime s) (activityHandler s) (timers s) (nextTimer s) (listeners s) (nextHandler s) l.

(** [constructor(timeoutMs = 900000)] *)
Definition new (timeoutMs now : Z) : t :=
  mk timeoutMs now None None None None false 60000 None ∅ 1%positive [] 0 [].

(** The platform's [setTimeout(closure, delay)]: the handle and the state. *)
Definition setTimer (kind : timerKind) (delay now : Z) (s : t) : positive * t :=
  let h := nextTimer s in
  (h, mk (timeoutMs s) (lastActivity s) (timeoutId s) (warningId s)
         (onTimeout s) (onWarning s) (isActive s) (warningTime s)
         (activityHandler s)
         (<[h := (kind, now + Z.max 0 (toInt32 delay))]> (timers s))
         (Pos.succ h) (listeners s) (nextHandler s) (calls s)).

(** The platform's [clearTimeout(handle)]. *)
Definition clearTimer (h : positive) (s : t) : t :=
  set_timers (delete h (timers s)) s.

Definition resetTimeout (s : t) (now : Z) : t :=
  if negb (isActive s) then s
  else
    let s := set_lastActivity now s in
    let s := match timeoutId s with Some h => clearTimer h s | None => s end in
    let s := match warningId s with Some h => clearTimer h s | None => s end in
    let s :=
      if bool_decide (is_Some (onWarning s)) && (warningTime s <? timeoutMs s)
      then
        let '(h, s) := setTimer WarningTimer (timeoutMs s - warningTime s) now s in
        set_warningId (Some h) s
      else s in
    let '(h, s) := setTimer TimeoutTimer (timeoutMs s) now s in
    set_timeoutId (Some h) s.

Definition stop (s : t) : t :=
  let s := set_isActive false s in
  let s := match timeoutId s with
           | Some h => set_timeoutId None (clearTimer h s)
           | None => s
           end in
  let s := match warningId s with
           | Some h => set_warningId None (clearTimer h s)
           | None => s
           end in
  match activityHandler s with
  | Some a => set_listeners (List.filter (fun b => negb (Nat.eqb b a)) (listeners s)) s
  | None => s
  end.

(** [start(onTimeout, onWarning = null)]: a missing callback is [None]. *)
Definition start (s : t) (onTimeout onWarning : option callback) (now : Z) : t :=
  let a := nextHandler s in
  let s := mk (timeoutMs s) (lastActivity s) (timeoutId s) (warningId s)
              onTimeout onWarning true (warningTime s) (Some a)
              (timers s) (nextTimer s) (listeners s ++ [a]) (S a) (calls s) in
  resetTimeout s now.

Definition getTimeUntilTimeout (s : t) (now : Z) : Z :=
  if negb (isActive s) then 0
  else
    let elapsed := now - lastActivity s in
    Z.max 0 (timeoutMs s - elapsed).

Definition extend (s : t) (now : Z) : t := resetTimeout s now.

Definition setTimeout (s : t) (timeoutMs now : Z) : t :=
  let s := set_timeoutMs timeoutMs s in
  if isActive s then resetTimeout s now else s.

(** An activity event on the page: every registered handler runs, and each
    is [() => this.resetTimeout()]. *)
Definition activity (s : t) (now : Z) : t :=
  fold_left (fun s _ => resetTimeout s now) (listeners s) s.

(** Calling a callback: it is recorded, and it stops the session if it is
    one that does. *)
Definition invoke (c : call) (f : callback) (s : t) : t :=
  let s := set_calls (calls s ++ [c]) s in
  if callsStop f then stop s else s.

(** The platform runs the closure of a pending timer that is due, and the
    timer is pending no more. *)
Definition fire (s : t) (h : positive) (now : Z) : t :=
  match timers s !! h with
  | Some (kind, due) =>
      if now <? due then s
      else
        let s := set_timers (delete h (timers s)) s in
        match kind with
        | WarningTimer =>
            match onWarning s with
            | Some g => invoke (CalledWarning g (warningTime s / 1000)) g s
            | None => s
            end
        | TimeoutTimer =>
            let s := match onTimeout s with
                     | Some f => invoke (CalledTimeout f) f s
                     | None => s
                     end in
            stop s
        end
  | None => s
  end.

(** What can happen to a session: a call of one of its methods, an activity
    event, or a timer coming due. *)
Inductive event :=
  | Start (onTimeout onWarning : option callback) (now : Z)
  | Stop
  | ResetTimeout (now : Z)
  | Extend (now : Z)
  | SetTimeout (timeoutMs now : Z)
  | Activity (now : Z)
  | Fire (h : positive) (now : Z).

Definition step (s : t) (e : event) : t :=
  match e with
  | Start f g now => start s f g now
  | Stop => stop s
  | ResetTimeout now => resetTimeout s now
  | Extend now => extend s now
  | SetTimeout ms now => setTimeout s ms now
  | Activity now => activity s now
  | Fire h now => fire s h now
  end.

Definition steps (s : t) (events : list event) : t := fold_left step events s.

(** The delay the platform gives a timer asked for with [delay]. *)
Definition delayOf (delay : Z) : Z := Z.max 0 (toInt32 delay).

(** The timers agree with the fields: a session that is not active has no
    timer pending; an active one has its timeout timer pending, due a
    timeout after the last activity; any other pending timer is the warning
    timer in [warningId]; and the handles kept are older than the next one. *)
Record consistent (s : t) : Prop := mkConsistent {
  consistent_timeout :
    isActive s = true ->
    exists h, timeoutId s = Some h /\
      timers s !! h = Some (TimeoutTimer, lastActivity s + delayOf (timeoutMs s));
  consistent_timers :
    forall h kind due, timers s !! h = Some (kind, due) ->
      isActive s = true /\
      match kind with
      | TimeoutTimer => timeoutId s = Some h
      | WarningTimer =>
          warningId s = Some h /\
          due = lastActivity s + delayOf (timeoutMs s - warningTime s)
      end;
  consistent_timeoutId :
    forall h, timeoutId s = Some h -> (h < nextTimer s)%positive;
  consistent_warningId :
    forall h, warningId s = Some h -> (h < nextTimer s)%positive
}.

(** What [stop] and an active [resetTimeout] need of the state they start
    from: every pending timer is one of the two whose handle is kept, and
    the handles kept are older than the next one. *)
Definition tracked (s : t) : Prop :=
  (forall h kind due, timers s !! h = Some (kind, due) ->
     timeoutId s = Some h \/ warningId s = Some h) /\
  (forall h, timeoutId s = Some h -> (h < nextTimer s)%positive) /\
  (forall h, warningId s = Some h -> (h < nextTimer s)%positive).

Definition isStart (e : event) : bool :=
  match e with Start _ _ _ => true | _ => false end.

End SessionManager.

(** ** key-cache.js: class KeyCache *)

Module KeyCache.

(** [hash << 5]: [ToInt32] of the operand, shifted, wrapped to 32 bits. *)
Definition shl32 (h n : Z) : Z := toInt32 (Z.shiftl (toInt32 h) n).

(** [a & b] on numbers: both operands through [ToInt32]. *)
Definition and32 (a b : Z) : Z := Z.land (toInt32 a) (toInt32 b).

(** One turn of the loop of [simpleHash] on the code unit [char]. *)
Definition hashStep (hash char : Z) : Z :=
  let hash := (shl32 hash 5 - hash) + char in
  and32 hash hash.

(** The loop of [simpleHash]: the 32-bit hash before it is printed. *)
Definition hash32 (s : jsstring) : Z := fold_left hashStep s 0.

(** [Math.abs(hash).toString(36)] *)
Definition simpleHash (s : jsstring) : jsstring :=
  toStringRadix 36 (Z.abs (hash32 s)).

Definition saltStr (s : salt) : jsstring :=
  match s with
  | SaltBytes bytes => join (str ",") bytes
  | SaltString s => s
  end.

(** The template [`${simpleHash(password)}_${simpleHash(saltStr)}`] *)
Definition generateCacheKey (password : jsstring) (s : salt) : jsstring :=
  simpleHash password ++ str "_" ++ simpleHash (saltStr s).

Section Cache.
(** What the cache holds: in the application, a derived [CryptoKey]. *)
Context {V : Type}.

Record item := mkItem {
  value : V;
  expiresAt : Z;
  createdAt : Z;
  hits : Z
}.

(** The timer handle [cleanupInterval] plays no part in [set] and [get]
    and is left out. *)
Record t := mk {
  cache : gmap jsstring item;
  defaultTTL : Z
}.

(** [constructor(defaultTTL = 300000)] *)
Definition new (defaultTTL : Z) : t := mk ∅ defaultTTL.

(** [set(cacheKey, value, ttl = this.defaultTTL)]; [now] and [now'] are the
    two readings of the clock, for [expiresAt] and for [createdAt]. *)
Definition set (c : t) (cacheKey : jsstring) (v : V) (ttl : option Z)
    (now now' : Z) : t :=
  let ttl := default (defaultTTL c) ttl in
  let expiresAt := now + ttl in
  mk (<[cacheKey := mkItem v expiresAt now' 0]> (cache c)) (defaultTTL c).

(** [get(cacheKey)]: [None] is the [null] of the source. *)
Definition get (c : t) (cacheKey : jsstring) (now : Z) : option V * t :=
  match cache c !! cacheKey with
  | None => (None, c)
  | Some item =>
      if now >? expiresAt item then
        (None, mk (delete cacheKey (cache c)) (defaultTTL c))
      else
        let item' := mkItem (value item) (expiresAt item) (createdAt item)
                            (hits item + 1) in
        (Some (value item), mk (<[cacheKey := item']> (cache c)) (defaultTTL c))
  end.

(** A run of [get] calls on one cache key at the given clock readings. *)
Fixpoint gets (c : t) (cacheKey : jsstring) (clock : list Z)
  : list (option V) * t :=
  match clock with
  | [] => ([], c)
  | now :: clock' =>
      let '(v, c1) := get c cacheKey now in
      let '(vs, c2) := gets c1 cacheKey clock' in
      (v :: vs, c2)
  end.

(** [has(cacheKey)]: [this.get(cacheKey) !== null], with the effects of
    [get]. *)
Definition has (c : t) (cacheKey : jsstring) (now : Z) : bool * t :=
  let '(v, c') := get c cacheKey now in (bool_decide (is_Some v), c').

(** [delete(cacheKey)] *)
Definition delete_ (c : t) (cacheKey : jsstring) : t :=
  mk (delete cacheKey (cache c)) (defaultTTL c).

(** [clear()] *)
Definition clear (c : t) : t := mk ∅ (defaultTTL c).

(** [cleanup()]: the number of entries removed and the cache left. The loop
    deletes the entries with [now > item.expiresAt] while it walks the map,
    which visits every entry once. *)
Definition cleanup (c : t) (now : Z) : nat * t :=
  (size (filter (fun kv => expiresAt kv.2 < now) (cache c)),
   mk (filter (fun kv => ~ expiresAt kv.2 < now) (cache c)) (defaultTTL c)).

(** [getTimeToExpire(cacheKey)]: [None] is [null]. *)
Definition getTimeToExpire (c : t) (cacheKey : jsstring) (now : Z) : option Z :=
  match cache c !! cacheKey with
  | None => None
  | Some item =>
      let remaining := expiresAt item - now in
      Some (if remaining >? 0 then remaining else 0)
  end.

(** [extend(cacheKey, additionalTime)] *)
Definition extend (c : t) (cacheKey : jsstring) (additionalTime : Z) : bool * t :=
  match cache c !! cacheKey with
  | None => (false, c)
  | Some item =>
      (true,
       mk (<[cacheKey := mkItem (value item) (expiresAt item + additionalTime)
                                (createdAt item) (hits item)]> (cache c))
          (defaultTTL c))
  end.

End Cache.

Arguments item : clear implicits.
Arguments t : clear implicits.

End KeyCache.

(** ** zero-knowledge.js: class ZeroKnowledge *)

Module ZeroKnowledge.

(** The JavaScript values a property of a proof object may hold; numbers
    are the integers (no [NaN]), and [VObject] stands for any object. *)
Inductive value :=
  | VUndefined
  | VNull
  | VBool (b : bool)
  | VNumber (n : Z)
  | VString (s : jsstring)
  | VObject.

(** [ToBoolean] *)
Definition truthy (v : value) : bool :=
  match v with
  | VUndefined | VNull => false
  | VBool b => b
  | VNumber n => negb (n =? 0)
  | VString s => negb (Nat.eqb (length s) 0)
  | VObject => true
  end.

(** [a && b] evaluates to [a] when [a] is falsy and to [b] otherwise. *)
Definition and_ (a b : value) : value := if truthy a then b else a.

(** The properties of the proof argument that [verifyPasswordProof] reads.
    The argument itself is [None] when it is [null] or [undefined], where
    reading a property throws a [TypeError]; a property that is missing
    holds [VUndefined]. *)
Record proof := mkProof {
  commitment : value;
  response : value;
  salt : value
}.

(** A proof is structurally complete when its three properties are truthy. *)
Definition complete (p : proof) : bool :=
  truthy (commitment p) && truthy (response p) && truthy (salt p).

Record challengeData := mkChallenge {
  challenge : list Z;
  timestamp : Z;
  verified : bool
}.

Record proofRecord := mkProofRecord {
  proofVerified : bool;
  proofTimestamp : Z
}.

Record t := mk {
  challenges : gmap jsstring challengeData;
  proofs : gmap jsstring proofRecord
}.

Definition new : t := mk ∅ ∅.

Definition arrayToHex (array : list Z) : jsstring := hex array.

(** [generateChallenge()]: [random] is the 32 bytes drawn from
    [crypto.getRandomValues]; the result is the pair
    [{challengeId, challenge}]. *)
Definition generateChallenge (zk : t) (random : list Z) (now : Z)
  : (jsstring * jsstring) * t :=
  let challengeId := arrayToHex random in
  ((challengeId, arrayToHex random),
   mk (<[challengeId := mkChallenge random now false]> (challenges zk))
      (proofs zk)).

(** What the [try] block of [verifyPasswordProof] throws. *)
Inductive exn :=
  | Error (msg : jsstring)
  | TypeError.

(** The [try] block: a thrown error or the returned value, with the state
    the block leaves. [now] is the clock reading for the age of the
    challenge and [now'] the one stored in the proof record. *)
Definition verifyPasswordProof_try (zk : t) (proof : option proof)
    (challengeId : jsstring) (storedPasswordHash : value) (now now' : Z)
  : (exn + value) * t :=
  match challenges zk !! challengeId with
  | None => (inl (Error (str "Challenge not found or expired")), zk)
  | Some challengeData =>
      let age := now - timestamp challengeData in
      if age >? 300000 then
        (inl (Error (str "Challenge expired")),
         mk (delete challengeId (challenges zk)) (proofs zk))
      else
        match proof with
        | None => (inl TypeError, zk)
        | Some proof =>
            let isValid :=
              and_ (and_ (commitment proof) (response proof)) (salt proof) in
            if truthy isValid then
              let challengeData' :=
                mkChallenge (challenge challengeData)
                            (timestamp challengeData) true in
              (inr isValid,
               mk (<[challengeId := challengeData']> (challenges zk))
                  (<[challengeId := mkProofRecord true now']> (proofs zk)))
            else (inr isValid, zk)
        end
  end.

(** [verifyPasswordProof]: the value the returned promise resolves to. The
    [catch] turns every error into [false]. *)
Definition verifyPasswordProof (zk : t) (proof : option proof)
    (challengeId : jsstring) (storedPasswordHash : value) (now now' : Z)
  : value * t :=
  match verifyPasswordProof_try zk proof challengeId storedPasswordHash now now' with
  | (inl _, zk') => (VBool false, zk')
  | (inr isValid, zk') => (isValid, zk')
  end.

(** A run of [verifyPasswordProof] calls with one proof and one challenge
    id, at the given pairs of clock readings. *)
Fixpoint verifyPasswordProofs (zk : t) (proof : option proof)
    (challengeId : jsstring) (storedPasswordHash : value)
    (clock : list (Z * Z)) : list value * t :=
  match clock with
  | [] => ([], zk)
  | (now, now') :: clock' =>
      let '(v, zk1) :=
        verifyPasswordProof zk proof challengeId storedPasswordHash now now' in
      let '(vs, zk2) :=
        verifyPasswordProofs zk1 proof challengeId storedPasswordHash clock' in
      (v :: vs, zk2)
  end.

(** [clearExpiredChallenges()] *)
Definition clearExpiredChallenges (zk : t) (now : Z) : t :=
  mk (filter (fun kv => negb (now - timestamp kv.2 >? 300000) = true)
             (challenges zk))
     (proofs zk).

(** [hexToArray(hex)]: the loop reads [hex.substr(i, 2)] for [i] in steps
    of two, so a last single character is read alone. *)
Fixpoint hexToArray (hex : jsstring) : list Z :=
  match hex with
  | [] => []
  | a :: rest =>
      match rest with
      | [] => [toUint8 (parseInt16 [a])]
      | b :: rest' => toUint8 (parseInt16 [a; b]) :: hexToArray rest'
      end
  end.

(** The test that the two characters [arrayToHex] writes for the byte [n]
    are read back as [n] by [hexToArray]. *)
Definition hexByteReadsBack (n : nat) : bool :=
  match hexByte (Z.of_nat n) with
  | [h; l] => toUint8 (parseInt16 [h; l]) =? Z.of_nat n
  | _ => false
  end.

(** [Date.now() - proof.timestamp > limit] for a timestamp that is a number
    or is missing: with a missing timestamp the difference is [NaN] and the
    comparison is false. *)
Definition olderThan (limit now : Z) (timestamp : option Z) : bool :=
  match timestamp with
  | Some t => now - t >? limit
  | None => false
  end.

(** The properties of an age proof that [verifyAgeProof] reads; the
    timestamp is a number, as [createAgeProof] writes it, or is missing. *)
Record ageProof := mkAgeProof {
  ageCommitment : value;
  rangeProof : value;
  meetsRequirement : value;
  ageTimestamp : option Z
}.

(** [verifyAgeProof(proof)]: the argument is [None] when it is [null] or
    [undefined], where the [catch] returns [false]. *)
Definition verifyAgeProof (proof : option ageProof) (now : Z) : bool :=
  match proof with
  | None => false
  | Some proof =>
      if negb (truthy (ageCommitment proof)) || negb (truthy (rangeProof proof))
      then false
      else if olderThan 3600000 now (ageTimestamp proof) then false
      else match meetsRequirement proof with
           | VBool _ => true
           | _ => false
           end
  end.

(** The properties of a vault access proof that [verifyVaultAccessProof]
    reads; the commitment is a string or is missing. *)
Record vaultProof := mkVaultProof {
  vaultCommitment : option jsstring;
  vaultResponse : value;
  vaultTimestamp : option Z
}.

(** [verifyVaultAccessProof(proof, storedCommitment)]; a string is strictly
    equal to an equal string and to nothing else. *)
Definition verifyVaultAccessProof (proof : option vaultProof)
    (storedCommitment : value) (now : Z) : bool :=
  match proof with
  | None => false
  | Some proof =>
      let commitment := default [] (vaultCommitment proof) in
      if Nat.eqb (length commitment) 0 || negb (truthy (vaultResponse proof))
      then false
      else if olderThan 300000 now (vaultTimestamp proof) then false
      else match storedCommitment with
           | VString s => bool_decide (commitment = s)
           | _ => false
           end
  end.

End ZeroKnowledge.

(** ** Platform text and base64 codecs

    [TextEncoder], [TextDecoder], [btoa] and [atob] are functions of the
    platform, not of the repository. They are written out here as the
    Encoding Standard and the HTML Standard define them, since what
    [encryptMessage] and [decryptMessage] return depends on them. *)

Module Text.

Definition isByte (b : Z) : Prop := 0 <= b <= 255.

Definition isHigh (c : Z) : bool := (55296 <=? c) && (c <=? 56319).
Definition isLow (c : Z) : bool := (56320 <=? c) && (c <=? 57343).

(** Conversion of a string to a sequence of scalar values (a
    [USVString]): a surrogate pair is one scalar value, and a surrogate
    that is not part of a pair is replaced by U+FFFD. *)
Fixpoint toUSV (s : jsstring) : list Z :=
  match s with
  | [] => []
  | c :: rest =>
      if isHigh c then
        match rest with
        | d :: rest' =>
            if isLow d
            then (65536 + (c - 55296) * 1024 + (d - 56320)) :: toUSV rest'
            else 65533 :: toUSV rest
        | [] => [65533]
        end
      else if isLow c then 65533 :: toUSV rest
      else c :: toUSV rest
  end.

(** The UTF-8 encoder on one scalar value. *)
Definition utf8 (cp : Z) : list Z :=
  if cp <=? 127 then [cp]
  else if cp <=? 2047 then [192 + cp / 64; 128 + cp mod 64]
  else if cp <=? 65535 then
    [224 + cp / 4096; 128 + (cp / 64) mod 64; 128 + cp mod 64]
  else
    [240 + cp / 262144; 128 + (cp / 4096) mod 64; 128 + (cp / 64) mod 64;
     128 + cp mod 64].

(** [new TextEncoder().encode(s)] *)
Definition encode (s : jsstring) : list Z := flat_map utf8 (toUSV s).

(** The state of the UTF-8 decoder while it is inside a sequence: the code
    point so far, the continuation bytes still needed, and the bounds of
    the next byte. *)
Record pending := mkPending {
  codePoint : Z;
  needed : Z;
  lower : Z;
  upper : Z
}.

(** The decoder on a byte when no sequence is open: the new state and the
    scalar values emitted. *)
Definition lead (b : Z) : option pending * list Z :=
  if b <=? 127 then (None, [b])
  else if (194 <=? b) && (b <=? 223) then
    (Some (mkPending (b mod 32) 1 128 191), [])
  else if (224 <=? b) && (b <=? 239) then
    (Some (mkPending (b mod 16) 2 (if b =? 224 then 160 else 128)
                     (if b =? 237 then 159 else 191)), [])
  else if (240 <=? b) && (b <=? 244) then
    (Some (mkPending (b mod 8) 3 (if b =? 240 then 144 else 128)
                     (if b =? 244 then 143 else 191)), [])
  else (None, [65533]).

(** One byte through the decoder. A byte outside the bounds ends the open
    sequence with U+FFFD and is then read again as a first byte. *)
Definition step (st : option pending) (b : Z) : option pending * list Z :=
  match st with
  | None => lead b
  | Some p =>
      if (lower p <=? b) && (b <=? upper p) then
        let cp := codePoint p * 64 + b mod 64 in
        if needed p =? 1 then (None, [cp])
        else (Some (mkPending cp (needed p - 1) 128 191), [])
      else
        let '(st', out) := lead b in (st', 65533 :: out)
  end.

Fixpoint run (st : option pending) (bytes : list Z) : list Z :=
  match bytes with
  | [] => match st with Some _ => [65533] | None => [] end
  | b :: rest => let '(st', out) := step st b in out ++ run st' rest
  end.

(** A decoder created with the default options drops a leading byte order
    mark. *)
Definition stripBOM (bytes : list Z) : list Z :=
  match bytes with
  | a :: b :: c :: rest =>
      if (a =? 239) && (b =? 187) && (c =? 191) then rest else bytes
  | _ => bytes
  end.

(** A scalar value as UTF-16 code units. *)
Definition fromUSV (cp : Z) : jsstring :=
  if cp <? 65536 then [cp]
  else [55296 + (cp - 65536) / 1024; 56320 + (cp - 65536) mod 1024].

(** [new TextDecoder().decode(bytes)] *)
Definition decode (bytes : list Z) : jsstring :=
  flat_map fromUSV (run None (stripBOM bytes)).

(** A Unicode scalar value: a code point that is not a surrogate. *)
Definition scalar (cp : Z) : Prop :=
  0 <= cp <= 1114111 /\ ~ (55296 <= cp <= 57343).

(** A UTF-16 code unit. *)
Definition codeUnit (c : Z) : Prop := 0 <= c <= 65535.

(** A string in which every surrogate is part of a pair. *)
Inductive wellFormed : jsstring -> Prop :=
  | wf_nil : wellFormed []
  | wf_unit c s :
      0 <= c <= 65535 -> isHigh c = false -> isLow c = false ->
      wellFormed s -> wellFormed (c :: s)
  | wf_pair h l s :
      isHigh h = true -> isLow l = true ->
      wellFormed s -> wellFormed (h :: l :: s).

End Text.

Module Base64.

(** The character of a six-bit value in the base64 alphabet. *)
Definition enc (i : Z) : Z :=
  if i <? 26 then 65 + i
  else if i <? 52 then 71 + i
  else if i <? 62 then i - 4
  else if i =? 62 then 43
  else 47.

(** The six-bit value of a character of the alphabet. *)
Definition dec (c : Z) : option Z :=
  if (65 <=? c) && (c <=? 90) then Some (c - 65)
  else if (97 <=? c) && (c <=? 122) then Some (c - 71)
  else if (48 <=? c) && (c <=? 57) then Some (c + 4)
  else if c =? 43 then Some 62
  else if c =? 47 then Some 63
  else None.

Fixpoint encodeBytes (l : list Z) : jsstring :=
  match l with
  | [] => []
  | a :: l1 =>
      match l1 with
      | [] => [enc (a / 4); enc (a mod 4 * 16); 61; 61]
      | b :: l2 =>
          match l2 with
          | [] => [enc (a / 4); enc (a mod 4 * 16 + b / 16);
                   enc (b mod 16 * 4); 61]
          | c :: rest =>
              enc (a / 4) :: enc (a mod 4 * 16 + b / 16)
              :: enc (b mod 16 * 4 + c / 64) :: enc (c mod 64)
              :: encodeBytes rest
          end
      end
  end.

(** [btoa(s)]: [None] stands for the [InvalidCharacterError] thrown when a
    code unit is above 255. *)
Definition btoa (s : jsstring) : option jsstring :=
  if forallb (fun c => c <=? 255) s then Some (encodeBytes s) else None.

Definition isWhitespace (c : Z) : bool :=
  (c =? 9) || (c =? 10) || (c =? 12) || (c =? 13) || (c =? 32).

(** Removal of one or two [=] at the end. *)
Fixpoint stripPad (l : jsstring) : jsstring :=
  match l with
  | [] => []
  | a :: rest =>
      match rest with
      | [] => if a =? 61 then [] else [a]
      | b :: rest' =>
          match rest' with
          | [] => if b =? 61 then (if a =? 61 then [] else [a]) else [a; b]
          | _ :: _ => a :: stripPad rest
          end
      end
  end.

(** The bytes of a string of alphabet characters, four characters for
    three bytes; a last group of two or three characters gives one or two
    bytes, and a last group of one character is an error, as is any
    character outside the alphabet. *)
Fixpoint decodeChars (l : jsstring) : option (list Z) :=
  match l with
  | [] => Some []
  | a :: l1 =>
      match l1 with
      | [] => None
      | b :: l2 =>
          i ← dec a; j ← dec b;
          match l2 with
          | [] => Some [i * 4 + j / 16]
          | c :: l3 =>
              k ← dec c;
              match l3 with
              | [] => Some [i * 4 + j / 16; j mod 16 * 16 + k / 4]
              | d :: rest =>
                  m ← dec d; tail ← decodeChars rest;
                  Some (i * 4 + j / 16 :: j mod 16 * 16 + k / 4
                        :: k mod 4 * 64 + m :: tail)
              end
          end
      end
  end.

(** [atob(s)], the forgiving-base64 decoding: [None] stands for the
    [InvalidCharacterError]. *)
Definition atob (s : jsstring) : option (list Z) :=
  let s := List.filter (fun c => negb (isWhitespace c)) s in
  let s := if Z.of_nat (length s) mod 4 =? 0 then stripPad s else s in
  decodeChars s.

End Base64.

(** ** The cryptographic primitives of the platform

    [crypto.subtle] is taken as an interface. The operations are the ones
    the sources call, each with the algorithm parameters the sources pass:
    AES-GCM with a 256-bit key, PBKDF2 with SHA-256 deriving such a key,
    SHA-256, and ECDH on a named curve. An operation whose promise may
    reject returns an [option]. *)

Module Host.

(** The steps of the modelled operations that the platform can refuse; each
    throws an exception of its own. *)
Inductive rejection :=
  | AtobRejected
  | BtoaRejected
  | SpreadRejected
  | ImportKeyRejected
  | EncryptRejected
  | DecryptRejected
  | IterationsRejected
  | DeriveKeyRejected
  | GenerateKeyRejected.

Class Subtle := {
  CryptoKey : Type;
  Jwk : Type;
  (** the key is an AES-GCM key with the usages [encrypt] and [decrypt] *)
  usable : CryptoKey -> bool;
  (** [encrypt({name: "AES-GCM", iv}, key, data)] *)
  aesGcmEncrypt : CryptoKey -> list Z -> list Z -> option (list Z);
  (** [decrypt({name: "AES-GCM", iv}, key, data)] *)
  aesGcmDecrypt : CryptoKey -> list Z -> list Z -> option (list Z);
  (** [importKey("raw", password, "PBKDF2")] and then [deriveKey] with the
      salt, the iteration count and SHA-256, for AES-GCM of 256 bits *)
  pbkdf2 : list Z -> list Z -> Z -> CryptoKey;
  (** [exportKey("jwk", key)] of an extractable key *)
  exportJwk : CryptoKey -> Jwk;
  (** [importKey("jwk", jwk, {name: "AES-GCM", length: 256}, ...)] *)
  importAesJwk : Jwk -> option CryptoKey;
  (** [digest("SHA-256", data)] *)
  sha256 : list Z -> list Z;
  (** [generateKey] for ECDH on a named curve, from the entropy it draws:
      the exported public and private keys *)
  ecdhGenerate : jsstring -> list Z -> option (Jwk * Jwk);
  (** import of a private and a public ECDH key on P-256 and [deriveKey]
      for AES-GCM of 256 bits *)
  ecdhDerive : Jwk -> Jwk -> option CryptoKey;
  (** the message of the exception a refused step throws *)
  failure : rejection -> jsstring;
  (** the most arguments the engine takes in one call: a call with more,
      as a spread of a longer array makes, throws a [RangeError] *)
  maxArguments : Z
}.

(** [String.fromCharCode(...array)] for the array of the bytes of a buffer:
    the string with those code units, unless the array has more elements
    than a call takes arguments. *)
Definition fromCharCode `{Subtle} (array : list Z) : option jsstring :=
  if Z.of_nat (length array) <=? maxArguments then Some array else None.

(** AES-GCM is an authenticated cipher: under a usable key and a 12-byte
    IV, encryption of bytes succeeds and gives the bytes of the ciphertext
    followed by the 16 bytes of the tag, and decryption with the same key
    and IV gives the data back. *)
Class Aead (H : Subtle) : Prop := {
  aes_roundtrip : forall k iv data,
    usable k = true -> length iv = 12%nat ->
    Forall Text.isByte iv -> Forall Text.isByte data ->
    exists c, aesGcmEncrypt k iv data = Some c /\ Forall Text.isByte c /\
              length c = (length data + 16)%nat /\
              aesGcmDecrypt k iv c = Some data
}.

(** A small instance of the interface, on which the model can be evaluated:
    keys are numbers, the cipher adds the key to every byte modulo 256 and
    appends sixteen zero bytes for the tag, the digest is the sum of the
    bytes, and a call takes 65535 arguments. *)
Definition reference : Subtle := {|
  CryptoKey := Z;
  Jwk := Z;
  usable := fun _ => true;
  aesGcmEncrypt := fun k _ data =>
    Some (List.map (fun b => (b + k) mod 256) data ++ repeat 0 16);
  aesGcmDecrypt := fun k _ c =>
    if Nat.ltb (length c) 16 then None
    else Some (List.map (fun b => (b - k) mod 256) (take (length c - 16) c));
  pbkdf2 := fun password salt iterations =>
    fold_left Z.add (password ++ salt) iterations;
  exportJwk := fun k => k;
  importAesJwk := fun jwk => Some jwk;
  sha256 := fun data => [fold_left Z.add data 0 mod 256];
  ecdhGenerate := fun _ entropy => Some (fold_left Z.add entropy 0, fold_left Z.add entropy 1);
  ecdhDerive := fun priv pub => Some (priv + pub);
  failure := fun _ => str "OperationError";
  maxArguments := 65535
|}.

End Host.

(** ** zero-knowledge.js: creation of proofs

    The functions of [ZeroKnowledge] that hash. [deriveBits] is the
    platform's PBKDF2 with SHA-256 giving 256 bits from a password, a salt
    and an iteration count. The platform operations are total here, so the
    [catch] of each function has nothing to catch. *)

Module ZeroKnowledgeCreate.

Section WithHost.
Context {H : Host.Subtle}.
Variable deriveBits : list Z -> list Z -> Z -> list Z.
Import Host ZeroKnowledge.

(** [hashData(data)] *)
Definition hashData (data : list Z) : list Z := sha256 data.

(** The object [createPasswordProof] returns. *)
Record passwordProof := mkPasswordProof {
  commitment : jsstring;
  response : jsstring;
  salt : jsstring;
  timestamp : Z
}.

(** [createPasswordProof(password, challengeHex)]; [random] is the 16
    bytes drawn for the salt. *)
Definition createPasswordProof (password challengeHex : jsstring)
    (random : list Z) (now : Z) : passwordProof :=
  let passwordBuffer := Text.encode password in
  let salt := random in
  let commitment := hashData (passwordBuffer ++ salt) in
  let challenge := hexToArray challengeHex in
  let response := hashData (commitment ++ challenge ++ passwordBuffer) in
  mkPasswordProof (arrayToHex commitment) (arrayToHex response)
                  (arrayToHex salt) now.

(** The properties of a created proof as [verifyPasswordProof] reads them. *)
Definition asProof (p : passwordProof) : proof :=
  mkProof (VString (commitment p)) (VString (response p)) (VString (salt p)).

(** What the code reads of a [Date]: [getFullYear()], [getMonth()] and
    [getDate()]. *)
Record date := mkDate {
  fullYear : Z;
  month : Z;
  dayOfMonth : Z
}.

(** The object [createAgeProof] returns. *)
Record createdAgeProof := mkCreatedAgeProof {
  createdCommitment : jsstring;
  createdRangeProof : jsstring;
  createdMeetsRequirement : bool;
  minAge : Z;
  createdTimestamp : Z
}.

(** The age in whole years on the day [today]. *)
Definition actualAge (birthdate today : date) : Z :=
  let age := fullYear today - fullYear birthdate in
  let monthDiff := month today - month birthdate in
  if (monthDiff <? 0)
     || ((monthDiff =? 0) && (dayOfMonth today <? dayOfMonth birthdate))
  then age - 1 else age.

(** [createAgeProof(birthdate, minAge)]; [today] is [new Date()], [random]
    the 16 bytes of the salt and [now] the reading of [Date.now()]. *)
Definition createAgeProof (birthdate : date) (minAge : Z) (today : date)
    (random : list Z) (now : Z) : createdAgeProof :=
  let actualAge := actualAge birthdate today in
  let ageBuffer := Text.encode (toString actualAge) in
  let salt := random in
  let commitment := hashData (ageBuffer ++ salt) in
  let meetsRequirement := actualAge >=? minAge in
  let rangeProof :=
    hashData (commitment ++ Text.encode (toString minAge)
              ++ [if meetsRequirement then 1 else 0]) in
  mkCreatedAgeProof (arrayToHex commitment) (arrayToHex rangeProof)
                    meetsRequirement minAge now.

(** The properties of a created age proof as [verifyAgeProof] reads them. *)
Definition asAgeProof (p : createdAgeProof) : ageProof :=
  mkAgeProof (VString (createdCommitment p)) (VString (createdRangeProof p))
             (VBool (createdMeetsRequirement p)) (Some (createdTimestamp p)).

(** The object [createVaultAccessProof] returns. *)
Record createdVaultProof := mkCreatedVaultProof {
  vaultProofCommitment : jsstring;
  vaultProofChallenge : jsstring;
  vaultProofResponse : jsstring;
  vaultProofTimestamp : Z
}.

(** [createVaultAccessProof(masterPassword, salt)]; [random] is the 32
    bytes of the challenge. *)
Definition createVaultAccessProof (masterPassword : jsstring) (salt : list Z)
    (random : list Z) (now : Z) : createdVaultProof :=
  let passwordBuffer := Text.encode masterPassword in
  let commitment := deriveBits passwordBuffer salt 100000 in
  let challenge := random in
  let response := hashData (commitment ++ challenge) in
  mkCreatedVaultProof (arrayToHex commitment) (arrayToHex challenge)
                      (arrayToHex response) now.

(** The properties of a created vault proof as [verifyVaultAccessProof]
    reads them. *)
Definition asVaultProof (p : createdVaultProof) : vaultProof :=
  mkVaultProof (Some (vaultProofCommitment p)) (VString (vaultProofResponse p))
               (Some (vaultProofTimestamp p)).

End WithHost.

End ZeroKnowledgeCreate.

(** ** e2ee-crypto.js: class E2EECrypto *)

Module E2EECrypto.

Section WithHost.
Context {H : Host.Subtle}.
Import Host.

(** The object [encryptMessage] returns. *)
Record envelope := mkEnvelope {
  ciphertext : jsstring;
  iv : jsstring;
  timestamp : Z
}.

(** [new Error(message)] *)
Inductive error := Error (message : jsstring).

(** [encryptMessage(message, key)]: [random] is the 12 bytes drawn for the
    IV and [now] the clock reading. Whatever the [try] block throws, the
    [RangeError] of a spread that is too long included, the [catch] throws
    the one error of the function. *)
Definition encryptMessage (message : jsstring) (key : CryptoKey)
    (random : list Z) (now : Z) : error + envelope :=
  let data := Text.encode message in
  let iv := random in
  match aesGcmEncrypt key iv data with
  | None => inl (Error (str "Failed to encrypt message"))
  | Some encryptedArray =>
      match fromCharCode encryptedArray ≫= Base64.btoa,
            fromCharCode iv ≫= Base64.btoa with
      | Some c, Some i => inr (mkEnvelope c i now)
      | _, _ => inl (Error (str "Failed to encrypt message"))
      end
  end.

(** [decryptMessage(encryptedData, key)] *)
Definition decryptMessage (encryptedData : envelope) (key : CryptoKey)
  : error + jsstring :=
  let failed :=
    Error (str "Failed to decrypt message - invalid key or corrupted data") in
  match Base64.atob (ciphertext encryptedData), Base64.atob (iv encryptedData) with
  | Some ciphertext, Some iv =>
      match aesGcmDecrypt key iv ciphertext with
      | Some decrypted => inr (Text.decode decrypted)
      | None => inl failed
      end
  | _, _ => inl failed
  end.

(** [deriveKeyFromPassword(password, salt)] *)
Definition deriveKeyFromPassword (password : jsstring) (salt : list Z)
  : CryptoKey :=
  pbkdf2 (Text.encode password) salt 100000.

End WithHost.

End E2EECrypto.

(** ** key-cache.js: class CachedCrypto *)

Module CachedCrypto.

Section WithHost.
Context {H : Host.Subtle}.
Import Host.

(** [this.keyCache], created with [new KeyCache(300000)]. *)
Definition new : KeyCache.t CryptoKey := KeyCache.new 300000.

(** [deriveKeyFromPassword(password, salt)] with a [Uint8Array] salt: the
    key returned and the cache left. [now] is the clock reading of [get],
    [now'] and [now''] are the two of [set]. A cached [CryptoKey] is an
    object, so [if (cached)] holds whenever [get] returned one. *)
Definition deriveKeyFromPassword (keyCache : KeyCache.t CryptoKey)
    (password : jsstring) (salt : list Z) (now now' now'' : Z)
  : CryptoKey * KeyCache.t CryptoKey :=
  let cacheKey := KeyCache.generateCacheKey password (SaltBytes salt) in
  match KeyCache.get keyCache cacheKey now with
  | (Some cached, keyCache) => (cached, keyCache)
  | (None, keyCache) =>
      let key := E2EECrypto.deriveKeyFromPassword password salt in
      (key, KeyCache.set keyCache cacheKey key None now' now'')
  end.

(** A run of calls for one password and salt, at the given triples of
    clock readings. *)
Fixpoint deriveKeysFromPassword (keyCache : KeyCache.t CryptoKey)
    (password : jsstring) (salt : list Z) (clock : list (Z * Z * Z))
  : list CryptoKey * KeyCache.t CryptoKey :=
  match clock with
  | [] => ([], keyCache)
  | (now, now', now'') :: clock' =>
      let '(k, c1) := deriveKeyFromPassword keyCache password salt now now' now'' in
      let '(ks, c2) := deriveKeysFromPassword c1 password salt clock' in
      (k :: ks, c2)
  end.

(** [clearCache()] *)
Definition clearCache (keyCache : KeyCache.t CryptoKey) : KeyCache.t CryptoKey :=
  KeyCache.clear keyCache.

End WithHost.

End CachedCrypto.

(** ** The crypto worker script (stored after [KeyCache] in key-cache.js) *)

Module CryptoWorker.

Section WithHost.
Context {H : Host.Subtle}.
Import Host.

(** The [data] object of a request; a property that is missing is [None]. *)
Record payload := mkPayload {
  password : option jsstring;
  salt : option JS.salt;
  iterations : option Z;
  plaintext : option jsstring;
  keyJwk : option Jwk;
  ciphertext : option jsstring;
  iv : option jsstring;
  curve : option jsstring;
  privateKeyJwk : option Jwk;
  publicKeyJwk : option Jwk;
  message : option jsstring
}.

Definition noData : payload :=
  mkPayload None None None None None None None None None None None.

(** What an operation resolves to. *)
Inductive result :=
  | RCryptoKey (key : CryptoKey)
  | RDerivedKey (key : Jwk) (salt : jsstring)
  | REncrypted (ciphertext iv : jsstring) (timestamp : Z)
  | RText (text : jsstring)
  | RKeyPair (publicKey privateKey : Jwk)
  | RSharedSecret (sharedSecret : Jwk).

(** [encoder.encode(x)]: the argument defaults to the empty string when it
    is [undefined]. *)
Definition encodeText (x : option jsstring) : list Z :=
  Text.encode (default [] x).

(** [atob(x)]: an [undefined] argument is read as the string "undefined". *)
Definition atobText (x : option jsstring) : option (list Z) :=
  Base64.atob (default (str "undefined") x).

(** A refused step of an operation ends it with the message of the
    exception the step throws. *)
Definition orFail {A} (r : rejection) (x : option A) : jsstring + A :=
  match x with Some a => inr a | None => inl (failure r) end.

(** [crypto.subtle.deriveKey] with PBKDF2: the iteration count has to be
    an unsigned 32-bit integer, or the call throws a [TypeError], and it
    must not be zero, or the operation is refused. *)
Definition deriveAesKey (passwordBuffer saltBuffer : list Z) (iterations : Z)
  : jsstring + CryptoKey :=
  if (iterations <? 0) || (4294967295 <? iterations) then
    inl (failure IterationsRejected)
  else if iterations =? 0 then inl (failure DeriveKeyRejected)
  else inr (pbkdf2 passwordBuffer saltBuffer iterations).

Definition deriveKeyFromPassword (data : payload) : jsstring + result :=
  let passwordBuffer := encodeText (password data) in
  let iterations := default 100000 (iterations data) in
  saltBuffer ← orFail AtobRejected
                 (match salt data with
                  | Some (SaltString s) => Base64.atob s
                  | Some (SaltBytes bytes) => Some bytes
                  | None => Some []
                  end);
  key ← deriveAesKey passwordBuffer saltBuffer iterations;
  let exportedKey := exportJwk key in
  chars ← orFail SpreadRejected (fromCharCode saltBuffer);
  salt64 ← orFail BtoaRejected (Base64.btoa chars);
  inr (RDerivedKey exportedKey salt64).

Definition encryptData (data : payload) (random : list Z) (now : Z)
  : jsstring + result :=
  let bytes := encodeText (plaintext data) in
  key ← orFail ImportKeyRejected (keyJwk data ≫= importAesJwk);
  let iv := random in
  encrypted ← orFail EncryptRejected (aesGcmEncrypt key iv bytes);
  encryptedChars ← orFail SpreadRejected (fromCharCode encrypted);
  c ← orFail BtoaRejected (Base64.btoa encryptedChars);
  ivChars ← orFail SpreadRejected (fromCharCode iv);
  i ← orFail BtoaRejected (Base64.btoa ivChars);
  inr (REncrypted c i now).

Definition decryptData (data : payload) : jsstring + result :=
  encryptedData ← orFail AtobRejected (atobText (ciphertext data));
  ivData ← orFail AtobRejected (atobText (iv data));
  key ← orFail ImportKeyRejected (keyJwk data ≫= importAesJwk);
  decrypted ← orFail DecryptRejected (aesGcmDecrypt key ivData encryptedData);
  inr (RText (Text.decode decrypted)).

Definition generateKeyPair (data : payload) (random : list Z)
  : jsstring + result :=
  let curve := default (str "P-256") (curve data) in
  '(publicKeyJwk, privateKeyJwk) ← orFail GenerateKeyRejected
                                     (ecdhGenerate curve random);
  inr (RKeyPair publicKeyJwk privateKeyJwk).

Definition deriveSharedSecret (data : payload) : jsstring + result :=
  sharedSecret ← orFail ImportKeyRejected
                   (priv ← privateKeyJwk data;
                    pub ← publicKeyJwk data;
                    ecdhDerive priv pub);
  inr (RSharedSecret (exportJwk sharedSecret)).

Definition hashData (data : payload) : jsstring + result :=
  let bytes := encodeText (message data) in
  inr (RText (hex (sha256 bytes))).

(** [type === name] *)
Definition typeIs (type : jsstring) (name : string) : bool :=
  bool_decide (type = str name).

(** What the worker posts: the ready notice, or the reply to a request,
    [{id, success: true, result}] or [{id, success: false, error}]. *)
Inductive workerMessage :=
  | Ready
  | Reply (id : nat) (outcome : jsstring + result).

(** The message listener of the worker: [random] is what the operation
    draws from the random source and [now] the clock reading. *)
Definition onmessage (id : nat) (type : jsstring) (data : payload)
    (random : list Z) (now : Z) : workerMessage :=
  Reply id
    (if typeIs type "deriveKey" then deriveKeyFromPassword data
     else if typeIs type "encryptData" then encryptData data random now
     else if typeIs type "decryptData" then decryptData data
     else if typeIs type "generateKeyPair" then generateKeyPair data random
     else if typeIs type "deriveSharedSecret" then deriveSharedSecret data
     else if typeIs type "hashData" then hashData data
     else inl (str "Unknown operation type: " ++ type)).

End WithHost.

End CryptoWorker.

(** ** crypto-worker-manager.js: class CryptoWorkerManager *)

Module CryptoWorkerManager.

Section WithHost.
Context {H : Host.Subtle}.
Import Host CryptoWorker.

Inductive error := Error (message : jsstring).

(** The state of a promise. *)
Inductive promiseState :=
  | Pending
  | Fulfilled (value : result)
  | Rejected (reason : error).

(** An entry of [this.workers]; [terminated] records that
    [worker.terminate()] was called on its [Worker]. *)
Record workerObj := mkWorker {
  busy : bool;
  id : nat;
  terminated : bool
}.

(** An entry of [pendingOperations]. Its [resolve] and [reject] are those
    of the promise with the same operation id. *)
Record pendingOp := mkPendingOp {
  timeoutId : nat;
  workerId : nat
}.

(** A scheduled timeout callback: the operation id and the worker object
    that its closure holds, and its delay. *)
Record timer := mkTimer {
  timerOperation : nat;
  timerWorker : nat;
  delay : Z
}.

(** The manager and what it shares with the event loop. Worker objects are
    held by reference: [this.workers] lists references into [heap], and a
    timeout callback keeps the reference it captured. [promises] are the
    promises of the dispatched operations by operation id, [timers] the
    scheduled timeouts by handle, and [outbox] the [postMessage] calls. *)
Record t := mk {
  workers : list nat;
  workerCount : nat;
  nextWorkerId : nat;
  pendingOperations : gmap nat pendingOp;
  operationId : nat;
  initialized : bool;
  heap : gmap nat workerObj;
  nextRef : nat;
  promises : gmap nat promiseState;
  timers : gmap nat timer;
  nextTimer : nat;
  outbox : list (nat * (nat * jsstring * payload))
}.

(** [constructor(workerCount = 2)]. Timer handles are positive. *)
Definition new (workerCount : nat) : t :=
  mk [] workerCount 0 ∅ 0 false ∅ 0 ∅ ∅ 1 [].

(** The loop of [initialize] from index [i], with [n] turns left: [new
    Worker] succeeds for the indices below [available], and the first
    failure leaves the loop. *)
Fixpoint spawn (n i available : nat) (w : t) : t :=
  match n with
  | O => w
  | S n' =>
      if Nat.ltb i available then
        spawn n' (S i) available
          (mk (workers w ++ [nextRef w]) (workerCount w) (nextWorkerId w)
              (pendingOperations w) (operationId w) (initialized w)
              (<[nextRef w := mkWorker false i false]> (heap w))
              (S (nextRef w)) (promises w) (timers w) (nextTimer w) (outbox w))
      else w
  end.

Definition initialize (w : t) (available : nat) : t :=
  if initialized w then w
  else
    let w := spawn (workerCount w) 0 available w in
    mk (workers w) (workerCount w) (nextWorkerId w) (pendingOperations w)
       (operationId w) (Nat.ltb 0 (length (workers w)))
       (heap w) (nextRef w) (promises w) (timers w) (nextTimer w) (outbox w).

(** [this.workers.find(w => !w.busy) || null]: the reference and the
    object. *)
Definition getAvailableWorker (w : t) : option (nat * workerObj) :=
  List.find (fun ro => negb (busy ro.2))
            (omap (fun r => (fun o => (r, o)) <$> heap w !! r) (workers w)).

Definition executeInMainThread (type : jsstring) (data : payload)
  : promiseState :=
  if typeIs type "deriveKey" then
    Fulfilled (RCryptoKey
      (E2EECrypto.deriveKeyFromPassword (default [] (password data))
                                        (repeat 0 16)))
  else if typeIs type "encryptData" then
    Rejected (Error (str "Main thread fallback not implemented for this operation"))
  else
    Rejected (Error (str "Unknown operation: " ++ type)).

(** The promise [execute] returns: the one of [executeInMainThread], whose
    outcome is known, or the new promise of a dispatched operation. *)
Inductive outcome :=
  | Inline (p : promiseState)
  | Dispatched (operationId : nat).

Definition setBusy (b : bool) (o : workerObj) : workerObj :=
  mkWorker b (id o) (terminated o).

(** The body of [execute] from the test of [this.workers.length] to its
    [return]. It has no [await] and so runs in one turn: within the call
    when the pool is initialized, and otherwise when the call is resumed,
    on the state the manager has by then. *)
Definition executeBody (w : t) (type : jsstring) (data : payload)
    (timeout : Z) : outcome * t :=
  if Nat.eqb (length (workers w)) 0 then
    (Inline (executeInMainThread type data), w)
  else
    match getAvailableWorker w with
    | None => (Inline (executeInMainThread type data), w)
    | Some (ref, workerObj) =>
        let operationId := operationId w in
        let timeoutId := nextTimer w in
        (Dispatched operationId,
         mk (workers w) (workerCount w) (nextWorkerId w)
            (<[operationId := mkPendingOp timeoutId (id workerObj)]>
               (pendingOperations w))
            (S operationId) (initialized w)
            (<[ref := setBusy true workerObj]> (heap w)) (nextRef w)
            (<[operationId := Pending]> (promises w))
            (<[timeoutId := mkTimer operationId ref timeout]> (timers w))
            (S timeoutId)
            (outbox w ++ [(ref, (operationId, type, data))]))
    end.

(** What a call of [execute] has done when control is back with the
    caller: it has run to its [return], or it waits for the promise of
    [initialize] with the rest of its body still to run. *)
Inductive called :=
  | Returned (o : outcome)
  | Suspended (type : jsstring) (data : payload) (timeout : Z).

(** The call [execute(type, data, timeout = 30000)] up to the point where
    control is back with the caller; [available] is the number of workers
    the platform can create. On a pool that is not initialized the call
    runs [initialize], which has no [await] of its own, and is suspended at
    [await this.initialize()]; whatever the caller does next, a
    [terminate()] or another [execute], runs before the call is resumed. *)
Definition executeCall (w : t) (available : nat) (type : jsstring)
    (data : payload) (timeout : Z) : called * t :=
  if initialized w then
    let '(o, w) := executeBody w type data timeout in (Returned o, w)
  else (Suspended type data timeout, initialize w available).

(** The resumption of a suspended call, on the state of that later turn. *)
Definition executeResume (w : t) (c : called) : option (outcome * t) :=
  match c with
  | Returned _ => None
  | Suspended type data timeout => Some (executeBody w type data timeout)
  end.

(** A call of [execute] and, if it was suspended, its resumption with
    nothing done to the manager in between: what a caller gets who awaits
    the promise before it touches the manager again. *)
Definition execute (w : t) (available : nat) (type : jsstring)
    (data : payload) (timeout : Z) : outcome * t :=
  match executeCall w available type data timeout with
  | (Returned o, w) => (o, w)
  | (Suspended type data timeout, w) => executeBody w type data timeout
  end.

(** [resolve] and [reject] act on a pending promise only. *)
Definition settle (p : promiseState) (op : nat)
    (promises : gmap nat promiseState) : gmap nat promiseState :=
  match promises !! op with
  | Some Pending => <[op := p]> promises
  | _ => promises
  end.

Definition handleWorkerMessage (w : t) (data : workerMessage) : t :=
  match data with
  | Ready => w
  | Reply id outcome =>
      match pendingOperations w !! id with
      | None => w
      | Some pending =>
          let timers' :=
            if Nat.eqb (timeoutId pending) 0 then timers w
            else delete (timeoutId pending) (timers w) in
          let promises' :=
            match outcome with
            | inr result => settle (Fulfilled result) id (promises w)
            | inl error => settle (Rejected (Error error)) id (promises w)
            end in
          let heap' :=
            match workers w !! workerId pending with
            | Some ref => alter (setBusy false) ref (heap w)
            | None => heap w
            end in
          mk (workers w) (workerCount w) (nextWorkerId w)
             (delete id (pendingOperations w)) (operationId w)
             (initialized w) heap' (nextRef w) promises' timers'
             (nextTimer w) (outbox w)
      end
  end.

(** The callback of the timeout with the given handle runs, if it is still
    scheduled. *)
Definition timeoutFires (w : t) (handle : nat) : t :=
  match timers w !! handle with
  | None => w
  | Some tm =>
      mk (workers w) (workerCount w) (nextWorkerId w)
         (delete (timerOperation tm) (pendingOperations w)) (operationId w)
         (initialized w)
         (alter (setBusy false) (timerWorker tm) (heap w)) (nextRef w)
         (settle (Rejected (Error (str "Operation timeout")))
                 (timerOperation tm) (promises w))
         (delete handle (timers w)) (nextTimer w) (outbox w)
  end.

Definition setTerminated (o : workerObj) : workerObj :=
  mkWorker (busy o) (id o) true.

Definition terminate (w : t) : t :=
  mk [] (workerCount w) (nextWorkerId w) (pendingOperations w)
     (operationId w) false
     (foldr (fun ref heap => alter setTerminated ref heap) (heap w) (workers w))
     (nextRef w) (promises w) (timers w) (nextTimer w) (outbox w).

(** What the promise of a dispatched operation settles to when the reply
    of the worker is handled. *)
Definition workerPath (type : jsstring) (data : payload) (random : list Z)
    (now : Z) : promiseState :=
  match onmessage 0 type data random now with
  | Reply _ (inr result) => Fulfilled result
  | Reply _ (inl error) => Rejected (Error error)
  | Ready => Pending
  end.

(** The convenience method [hash(message)]. *)
Definition hash (w : t) (available : nat) (message : jsstring) : outcome * t :=
  execute w available (str "hashData")
    (mkPayload None None None None None None None None None None (Some message))
    30000.

(** The convenience method [deriveKey(password, salt, iterations = 100000)]. *)
Definition deriveKey (w : t) (available : nat) (password : jsstring)
    (salt : JS.salt) (iterations : Z) : outcome * t :=
  execute w available (str "deriveKey")
    (mkPayload (Some password) (Some salt) (Some iterations)
               None None None None None None None None)
    30000.

(** What can happen to the manager, one turn at a time: a call of
    [initialize], a call of [execute] up to its return or its suspension,
    the resumption of a suspended call, a call of [terminate], a message
    from a worker, the firing of a timeout. Every run of the program is a
    sequence of these; a resumption is not tied here to the call it
    resumes, so the sequences are more than the runs. *)
Inductive event :=
  | Initialize (available : nat)
  | Call (available : nat) (type : jsstring) (data : payload) (timeout : Z)
  | Resume (type : jsstring) (data : payload) (timeout : Z)
  | Message (data : workerMessage)
  | TimerFires (handle : nat)
  | Terminate.

Definition step (w : t) (e : event) : t :=
  match e with
  | Initialize available => initialize w available
  | Call available type data timeout =>
      (executeCall w available type data timeout).2
  | Resume type data timeout => (executeBody w type data timeout).2
  | Message data => handleWorkerMessage w data
  | TimerFires handle => timeoutFires w handle
  | Terminate => terminate w
  end.

Definition steps (w : t) (events : list event) : t := fold_left step events w.

(** The books of the manager are in order: an operation with a pending
    entry has a pending promise and a timeout handle, every promise belongs
    to an operation id already given out, and timeout handles are positive. *)
Definition booked (w : t) : Prop :=
  (forall op pending, pendingOperations w !! op = Some pending ->
     promises w !! op = Some Pending /\ timeoutId pending <> 0%nat) /\
  (forall op p, promises w !! op = Some p -> (op < operationId w)%nat) /\
  nextTimer w <> 0%nat.

End WithHost.

End CryptoWorkerManager.

(** * Properties *)

(** Tactics for the comparisons and the divisions by constants of the
    codecs. *)

Ltac bool_hyps :=
  repeat match goal with
  | H : (_ && _) = true |- _ => apply andb_true_iff in H as [? ?]
  | H : (_ && _) = false |- _ => apply andb_false_iff in H
  | H : (_ <=? _) = true |- _ => apply Z.leb_le in H
  | H : (_ <=? _) = false |- _ => apply Z.leb_gt in H
  | H : (_ <? _) = true |- _ => apply Z.ltb_lt in H
  | H : (_ <? _) = false |- _ => apply Z.ltb_ge in H
  | H : (_ =? _) = true |- _ => apply Z.eqb_eq in H
  | H : (_ =? _) = false |- _ => apply Z.eqb_neq in H
  end.

Ltac zdiv := Z.div_mod_to_equations; lia.

Ltac decide_tests :=
  repeat match goal with
  | |- context [?a <=? ?b] =>
      first [ replace (a <=? b) with true by (symmetry; apply Z.leb_le; zdiv)
            | replace (a <=? b) with false by (symmetry; apply Z.leb_gt; zdiv) ]
  | |- context [?a <? ?b] =>
      first [ replace (a <? b) with true by (symmetry; apply Z.ltb_lt; zdiv)
            | replace (a <? b) with false by (symmetry; apply Z.ltb_ge; zdiv) ]
  | |- context [?a =? ?b] =>
      first [ replace (a =? b) with true by (symmetry; apply Z.eqb_eq; zdiv)
            | replace (a =? b) with false by (symmetry; apply Z.eqb_neq; zdiv) ]
  end.

(** ** Text and base64 codecs *)

Section CodecFacts.
Import Text Base64.

Lemma run_utf8 cp rest :
  scalar cp -> run None (utf8 cp ++ rest) = cp :: run None rest.
Proof.
  intros [Hr Hs]. unfold utf8.
  destruct (cp <=? 127) eqn:E1; bool_hyps.
  { cbn [app run step]. unfold lead. decide_tests. reflexivity. }
  destruct (cp <=? 2047) eqn:E2; bool_hyps.
  { cbn [app run step]. unfold lead. decide_tests. cbn [andb app run step lower upper codePoint needed].
    decide_tests. cbn [andb app]. f_equal. zdiv. }
  destruct (cp <=? 65535) eqn:E3; bool_hyps.
  { cbn [app run step]. unfold lead. decide_tests. cbn [andb app run step lower upper codePoint needed].
    destruct (224 + cp / 4096 =? 224) eqn:Ea; destruct (224 + cp / 4096 =? 237) eqn:Eb; bool_hyps;
    decide_tests; cbn [andb app run step lower upper codePoint needed]; decide_tests;
    cbn [andb app]; try (f_equal; zdiv); try lia. }
  cbn [app run step]. unfold lead. decide_tests. cbn [andb app run step lower upper codePoint needed].
  destruct (240 + cp / 262144 =? 240) eqn:Ea; destruct (240 + cp / 262144 =? 244) eqn:Eb; bool_hyps;
    decide_tests; cbn [andb app run step lower upper codePoint needed]; decide_tests;
    cbn [andb app run step lower upper codePoint needed]; decide_tests;
    cbn [andb app]; try (f_equal; zdiv); try lia.
Qed.

Lemma utf8_bytes cp : scalar cp -> Forall isByte (utf8 cp).
Proof.
  intros [Hr Hs]. unfold utf8, isByte.
  destruct (cp <=? 127) eqn:E1; bool_hyps; [repeat constructor; lia|].
  destruct (cp <=? 2047) eqn:E2; bool_hyps; [repeat constructor; zdiv|].
  destruct (cp <=? 65535) eqn:E3; bool_hyps; repeat constructor; zdiv.
Qed.

Lemma run_encoded cps :
  Forall scalar cps -> run None (flat_map utf8 cps) = cps.
Proof.
  induction 1 as [|cp cps Hcp _ IH]; [done|].
  cbn [flat_map]. by rewrite run_utf8, IH.
Qed.

Lemma toUSV_wellFormed s :
  wellFormed s ->
  Forall scalar (toUSV s) /\ flat_map fromUSV (toUSV s) = s.
Proof.
  induction 1 as [|c s Hc Hh Hl _ [IH1 IH2]|h l s Hh Hl _ [IH1 IH2]].
  - by split.
  - cbn [toUSV]. rewrite Hh, Hl. split.
    + constructor; [|done]. unfold isHigh, isLow in *. bool_hyps. split; lia.
    + cbn [flat_map]. rewrite IH2. unfold fromUSV. decide_tests. done.
  - cbn [toUSV]. rewrite Hh, Hl. unfold isHigh, isLow in *. bool_hyps. split.
    + constructor; [|done]. split; lia.
    + cbn [flat_map]. rewrite IH2. unfold fromUSV. decide_tests. cbn [app].
      f_equal; [zdiv|]. f_equal. zdiv.
Qed.

Lemma encode_bytes s : wellFormed s -> Forall isByte (encode s).
Proof.
  intros Hs. destruct (toUSV_wellFormed s Hs) as [Hsc _]. unfold encode.
  induction Hsc as [|cp cps Hcp _ IH]; [constructor|].
  cbn [flat_map]. apply Forall_app. split; [by apply utf8_bytes|done].
Qed.

(** The encoding of a scalar value other than U+FEFF does not start with
    the bytes of a byte order mark. *)
Lemma stripBOM_utf8 cp tail :
  scalar cp -> cp <> 65279 -> stripBOM (utf8 cp ++ tail) = utf8 cp ++ tail.
Proof.
  intros [Hr Hs] Hne. unfold utf8.
  destruct (cp <=? 127) eqn:E1; bool_hyps.
  { cbn [app]. destruct tail as [|x [|y r]]; try done.
    unfold stripBOM. decide_tests. done. }
  destruct (cp <=? 2047) eqn:E2; bool_hyps.
  { cbn [app]. destruct tail as [|x r]; try done.
    unfold stripBOM. decide_tests. done. }
  destruct (cp <=? 65535) eqn:E3; bool_hyps.
  - cbn [app]. unfold stripBOM.
    destruct (224 + cp / 4096 =? 239) eqn:Ea; [|done].
    destruct (128 + (cp / 64) mod 64 =? 187) eqn:Eb; [|done].
    destruct (128 + cp mod 64 =? 191) eqn:Ec; [|done].
    bool_hyps. exfalso. zdiv.
  - cbn [app]. unfold stripBOM. decide_tests. done.
Qed.

Lemma stripBOM_encode s :
  wellFormed s -> head s <> Some 65279 -> stripBOM (encode s) = encode s.
Proof.
  intros Hs Hhd. destruct (toUSV_wellFormed s Hs) as [Hsc _]. unfold encode.
  destruct Hs as [|c s Hc Hh Hl Hs|h l s Hh Hl Hs]; [done| |].
  - cbn [toUSV] in *. rewrite Hh, Hl in *. cbn [flat_map].
    apply Forall_cons in Hsc as [Hsc _].
    apply stripBOM_utf8; [done|]. cbn in Hhd. congruence.
  - cbn [toUSV] in *. rewrite Hh, Hl in *. cbn [flat_map].
    apply Forall_cons in Hsc as [Hsc _].
    apply stripBOM_utf8; [done|]. unfold isHigh, isLow in *. bool_hyps. lia.
Qed.

(** Decoding the encoding of a well-formed string that does not start with
    U+FEFF gives the string back. *)
Lemma decode_encode s :
  wellFormed s -> head s <> Some 65279 -> decode (encode s) = s.
Proof.
  intros Hs Hhd. unfold decode. rewrite stripBOM_encode by done.
  destruct (toUSV_wellFormed s Hs) as [Hsc Hback].
  unfold encode. by rewrite run_encoded.
Qed.

(** The alphabet character of a six-bit value: it is read back as that
    value, and it is neither whitespace nor the padding character. *)
Lemma enc_spec i :
  0 <= i < 64 ->
  dec (enc i) = Some i /\ isWhitespace (enc i) = false /\ enc i <> 61.
Proof.
  intros Hi. unfold enc.
  destruct (i <? 26) eqn:E1; bool_hyps.
  { unfold dec, isWhitespace. decide_tests. cbn. split; [f_equal; lia|]. split; [done|lia]. }
  destruct (i <? 52) eqn:E2; bool_hyps.
  { unfold dec, isWhitespace. decide_tests. cbn. split; [f_equal; lia|]. split; [done|lia]. }
  destruct (i <? 62) eqn:E3; bool_hyps.
  { unfold dec, isWhitespace. decide_tests. cbn. split; [f_equal; lia|]. split; [done|lia]. }
  destruct (i =? 62) eqn:E4; bool_hyps.
  { subst. by vm_compute. }
  assert (i = 63) as -> by lia. by vm_compute.
Qed.

(** Induction on a list three elements at a time. *)
Lemma list_ind3 {A} (P : list A -> Prop) :
  P [] -> (forall a, P [a]) -> (forall a b, P [a; b]) ->
  (forall a b c l, P l -> P (a :: b :: c :: l)) ->
  forall l, P l.
Proof.
  intros H0 H1 H2 H3 l.
  assert (H : P l /\ (forall a, P (a :: l)) /\ (forall a b, P (a :: b :: l))).
  { induction l as [|x l (IH0 & IH1 & IH2)]; [by repeat split|].
    split; [apply IH1|]. split; [intros a; apply IH2|]. intros a b. by apply H3. }
  apply H.
Qed.

Lemma stripPad_group e1 e2 e3 e4 tail :
  e3 <> 61 -> e4 <> 61 ->
  stripPad (e1 :: e2 :: e3 :: e4 :: tail) = e1 :: e2 :: e3 :: e4 :: stripPad tail.
Proof.
  intros H3 H4. destruct tail as [|x [|y r]].
  - cbn. by decide_tests.
  - cbn. decide_tests. by destruct (x =? 61).
  - reflexivity.
Qed.

(** What [encodeBytes] writes has no whitespace and a length that is a
    multiple of four, and reads back as the bytes once the padding is
    removed. *)
Lemma encodeBytes_spec bs :
  Forall isByte bs ->
  List.filter (fun c => negb (isWhitespace c)) (encodeBytes bs) = encodeBytes bs /\
  Z.of_nat (length (encodeBytes bs)) mod 4 = 0 /\
  decodeChars (stripPad (encodeBytes bs)) = Some bs.
Proof.
  unfold isByte. induction bs as [|a|a b|a b c bs IH] using list_ind3; intros Hb.
  - done.
  - apply Forall_cons in Hb as [Ha _].
    destruct (enc_spec (a / 4)) as (D1 & W1 & P1); [zdiv|].
    destruct (enc_spec (a mod 4 * 16)) as (D2 & W2 & P2); [zdiv|].
    cbn [encodeBytes List.filter]. rewrite W1, W2. cbn [negb isWhitespace].
    split; [done|]. split; [done|].
    cbn [stripPad]. decide_tests. cbn [decodeChars]. rewrite D1, D2. cbn.
    f_equal. f_equal. zdiv.
  - apply Forall_cons in Hb as [Ha Hb]. apply Forall_cons in Hb as [Hb _].
    destruct (enc_spec (a / 4)) as (D1 & W1 & P1); [zdiv|].
    destruct (enc_spec (a mod 4 * 16 + b / 16)) as (D2 & W2 & P2); [zdiv|].
    destruct (enc_spec (b mod 16 * 4)) as (D3 & W3 & P3); [zdiv|].
    cbn [encodeBytes List.filter]. rewrite W1, W2, W3. cbn [negb isWhitespace].
    split; [done|]. split; [done|].
    cbn [stripPad]. decide_tests. cbn [decodeChars]. rewrite D1, D2, D3. cbn.
    f_equal. f_equal; [zdiv|]. f_equal. zdiv.
  - apply Forall_cons in Hb as [Ha Hb]. apply Forall_cons in Hb as [Hb Hc].
    apply Forall_cons in Hc as [Hc Hbs]. destruct (IH Hbs) as (IHf & IHl & IHd).
    destruct (enc_spec (a / 4)) as (D1 & W1 & P1); [zdiv|].
    destruct (enc_spec (a mod 4 * 16 + b / 16)) as (D2 & W2 & P2); [zdiv|].
    destruct (enc_spec (b mod 16 * 4 + c / 64)) as (D3 & W3 & P3); [zdiv|].
    destruct (enc_spec (c mod 64)) as (D4 & W4 & P4); [zdiv|].
    cbn [encodeBytes List.filter]. rewrite W1, W2, W3, W4. cbn [negb].
    rewrite IHf. split; [done|]. split.
    + cbn [length]. rewrite !Nat2Z.inj_succ. zdiv.
    + rewrite stripPad_group by done. cbn [decodeChars].
      rewrite D1, D2, D3, D4, IHd. cbn.
      f_equal. f_equal; [zdiv|]. f_equal; [zdiv|]. f_equal. zdiv.
Qed.

(** [atob] reads back what [btoa] wrote from a sequence of bytes. *)
Lemma atob_btoa bs :
  Forall isByte bs ->
  exists s, btoa bs = Some s /\ atob s = Some bs.
Proof.
  intros Hb. exists (encodeBytes bs). split.
  - unfold btoa. assert (forallb (fun c => c <=? 255) bs = true) as ->; [|done].
    apply forallb_forall. intros x Hx. rewrite Forall_forall in Hb.
    apply Z.leb_le. apply list_elem_of_In in Hx. apply Hb in Hx. unfold isByte in Hx. lia.
  - destruct (encodeBytes_spec bs Hb) as (Hf & Hl & Hd).
    unfold atob. rewrite Hf, Hl. done.
Qed.

End CodecFacts.

(** ** Rate limiter *)

Section RateLimiterFacts.
Import RateLimiter.

Implicit Types (rl : t) (id : jsstring) (now : Z) (clock : list Z).

Lemma ceil_div_pos x : 0 < x -> 0 < ceil_div x 1000.
Proof.
  intros Hx. unfold ceil_div.
  assert (H : (- x) / 1000 < 0) by (apply Z.div_lt_upper_bound; lia).
  lia.
Qed.

Lemma activeBlock_Some b now u :
  activeBlock b now = Some u -> b = Some u /\ u <> 0 /\ now < u.
Proof.
  unfold activeBlock. destruct b as [v|]; [|discriminate].
  destruct (negb (v =? 0) && (now <? v)) eqn:E; [|discriminate].
  intros [= ->]. apply andb_true_iff in E as [E1 E2].
  apply negb_true_iff in E1. apply Z.eqb_neq in E1. apply Z.ltb_lt in E2. auto.
Qed.

Lemma activeBlock_set u now : u <> 0 -> now < u -> activeBlock (Some u) now = Some u.
Proof.
  intros Hu Hlt. unfold activeBlock.
  apply Z.eqb_neq in Hu. apply Z.ltb_lt in Hlt. by rewrite Hu, Hlt.
Qed.

Lemma activeBlock_over u now : u <= now -> activeBlock (Some u) now = None.
Proof.
  intros Hle. unfold activeBlock.
  assert ((now <? u) = false) as -> by (apply Z.ltb_ge; lia).
  by rewrite andb_false_r.
Qed.

(** The attempts kept by the filter when a suffix of the history is inside
    the window. *)
Lemma recent_app w now pre ts :
  recent w now (pre ++ ts) = recent w now pre ++ recent w now ts.
Proof. unfold recent. apply List.filter_app. Qed.

Lemma recent_all w now ts :
  (forall a, a ∈ ts -> now - a < w) -> recent w now ts = ts.
Proof.
  intros H. unfold recent. induction ts as [|a ts IH]; [done|]. simpl.
  assert ((now - a <? w) = true) as -> by (apply Z.ltb_lt; apply H; left).
  f_equal. apply IH. intros b Hb. apply H. by right.
Qed.

Lemma recent_none w now ts :
  (forall a, a ∈ ts -> w <= now - a) -> recent w now ts = [].
Proof.
  intros H. unfold recent. induction ts as [|a ts IH]; [done|]. simpl.
  assert ((now - a <? w) = false) as -> by (apply Z.ltb_ge; apply H; left).
  apply IH. intros b Hb. apply H. by right.
Qed.

(** What an allowed call does: no block was in force, the limiter's
    parameters and blocks are left alone, and the pruned history gets
    the clock reading at its end. *)
Lemma checkLimit_allowed rl id now r rl' :
  checkLimit rl id now = (r, rl') -> allowed r = true ->
  maxAttempts rl' = maxAttempts rl /\ windowMs rl' = windowMs rl /\
  blockedUntil rl' = blockedUntil rl /\
  attempts rl' !! id =
    Some (recent (windowMs rl) now (default [] (attempts rl !! id)) ++ [now]).
Proof.
  unfold checkLimit. intros H Ha.
  destruct (activeBlock _ _); [by inversion H; subst|].
  destruct (_ >=? _); inversion H; subst; [done|]. simpl.
  by rewrite lookup_insert_eq.
Qed.

(** A run of allowed calls that are pairwise inside the window keeps every
    one of its clock readings, in call order, at the end of the history. *)
Lemma checkLimits_allowed rl id clock : forall kept rs rl',
  checkLimits rl id clock = (rs, rl') ->
  Forall (fun r => allowed r = true) rs ->
  within (windowMs rl) (kept ++ clock) ->
  (exists pre, default [] (attempts rl !! id) = pre ++ kept) ->
  maxAttempts rl' = maxAttempts rl /\ windowMs rl' = windowMs rl /\
  blockedUntil rl' = blockedUntil rl /\
  exists pre, default [] (attempts rl' !! id) = pre ++ kept ++ clock.
Proof.
  revert rl. induction clock as [|now clock IH]; intros rl kept rs rl' H Hall Hw [pre Hpre].
  - inversion H; subst. repeat split; try done. exists pre. by rewrite app_nil_r.
  - simpl in H. destruct (checkLimit rl id now) as [r rl1] eqn:E1.
    destruct (checkLimits rl1 id clock) as [rs' rl2] eqn:E2.
    inversion H; subst. apply Forall_cons in Hall as [Hr Hrs].
    destruct (checkLimit_allowed _ _ _ _ _ E1 Hr) as (Hm & Hwin & Hb & Hat).
    destruct (IH rl1 (kept ++ [now]) rs' rl' E2 Hrs) as (Hm' & Hwin' & Hb' & pre' & Hat').
    + rewrite Hwin, <- app_assoc. exact Hw.
    + rewrite Hat. simpl. rewrite Hpre, recent_app.
      exists (recent (windowMs rl) now pre). rewrite <- app_assoc. f_equal.
      rewrite recent_all; [done|].
      intros a Ha. apply Hw; apply elem_of_app; [by left|right; left].
    + repeat split; try congruence.
      exists pre'. by rewrite Hat', <- app_assoc.
Qed.

(** After [reset], the next call is the first attempt of a fresh history. *)
Lemma checkLimit_after_reset rl id now :
  0 < maxAttempts rl ->
  (checkLimit (reset rl id) id now).1 =
    mkResult true None (Some (maxAttempts rl - 1)) None.
Proof.
  intros Hm. unfold checkLimit, reset.
  cbn [attempts blockedUntil maxAttempts windowMs].
  rewrite !lookup_delete_eq. cbn [activeBlock default recent List.filter length].
  change (Z.of_nat 0) with 0.
  destruct (0 >=? maxAttempts rl) eqn:E; [|reflexivity].
  apply Z.geb_le in E. lia.
Qed.

(** While a run of calls is allowed, no block is in force at any of its
    clock readings. *)
Lemma checkLimits_allowed_unblocked rl id clock : forall rs rl',
  checkLimits rl id clock = (rs, rl') ->
  Forall (fun r => allowed r = true) rs ->
  forall t, t ∈ clock -> activeBlock (blockedUntil rl !! id) t = None.
Proof.
  revert rl. induction clock as [|now clock IH]; intros rl rs rl' H Hall t Ht.
  { by apply elem_of_nil in Ht. }
  simpl in H. destruct (checkLimit rl id now) as [r rl1] eqn:E1.
  destruct (checkLimits rl1 id clock) as [rs' rl2] eqn:E2.
  inversion H; subst. apply Forall_cons in Hall as [Hr Hrs].
  apply elem_of_cons in Ht as [->|Ht].
  - unfold checkLimit in E1. destruct (activeBlock _ _); [|done].
    inversion E1; subst. discriminate.
  - destruct (checkLimit_allowed _ _ _ _ _ E1 Hr) as (_ & _ & Hb & _).
    rewrite <- Hb. by apply (IH rl1 rs' rl').
Qed.

(** The ceiling of a positive number of milliseconds in seconds. *)
Lemma ceil_div_seconds x :
  1000 * (ceil_div x 1000 - 1) < x <= 1000 * ceil_div x 1000.
Proof. unfold ceil_div. zdiv. Qed.

(** C2. With [maxAttempts = 5]: when five [checkLimit] calls on an
    identifier have been allowed and the sixth call comes with all six
    inside one window, the sixth is denied and reports the time to wait in
    seconds: the identifier is blocked until a deadline, and the number
    reported is positive and is the time from the call to that deadline in
    milliseconds divided by 1000 and rounded up; when the sixth reading is
    not before the other five, the deadline is one window after it. After
    [reset] of that identifier the next call, whenever it comes, is allowed
    and reports four attempts left. *)
Theorem checkLimit_sixth_denied_reset_restores rl id clock t6 rs rl5 :
  maxAttempts rl = 5 ->
  length clock = 5%nat ->
  within (windowMs rl) (clock ++ [t6]) ->
  checkLimits rl id clock = (rs, rl5) ->
  Forall (fun r => allowed r = true) rs ->
  let '(r6, rl6) := checkLimit rl5 id t6 in
  allowed r6 = false /\
  (exists secs deadline,
     retryAfter r6 = Some secs /\ 0 < secs /\
     blockedUntil rl6 !! id = Some deadline /\
     1000 * (secs - 1) < deadline - t6 <= 1000 * secs /\
     ((forall t, t ∈ clock -> t <= t6) -> deadline = t6 + windowMs rl)) /\
  attemptsLeft r6 = None /\
  forall now, (checkLimit (reset rl6 id) id now).1 = mkResult true None (Some 4) None.
Proof.
  intros Hmax Hlen Hw Hrun Hall.
  destruct (checkLimits_allowed rl id clock [] rs rl5 Hrun Hall) as (Hm & Hwin & Hb & pre & Hat).
  { intros a b Ha Hb. apply Hw; apply elem_of_app; by left. }
  { exists (default [] (attempts rl !! id)). by rewrite app_nil_r. }
  pose proof (checkLimits_allowed_unblocked rl id clock rs rl5 Hrun Hall) as Hfree.
  assert (Hpos : 0 < windowMs rl).
  { assert (Hin : t6 ∈ clock ++ [t6]) by (apply elem_of_app; right; left).
    specialize (Hw t6 t6 Hin Hin). lia. }
  destruct (checkLimit rl5 id t6) as [r6 rl6] eqn:E6.
  assert (Hm6 : maxAttempts rl6 = 5).
  { unfold checkLimit in E6. destruct (activeBlock _ _); [by inversion E6; subst; congruence|].
    destruct (_ >=? _); inversion E6; subst; simpl; congruence. }
  assert (Hreset : forall now,
    (checkLimit (reset rl6 id) id now).1 = mkResult true None (Some 4) None).
  { intros now. rewrite checkLimit_after_reset by lia. by rewrite Hm6. }
  unfold checkLimit in E6.
  destruct (activeBlock _ _) as [u|] eqn:Eb.
  - apply activeBlock_Some in Eb as (Hu & Hu0 & Hlt).
    inversion E6; subst. simpl. repeat split; try done.
    exists (ceil_div (u - t6) 1000), u.
    split; [done|]. split; [apply ceil_div_pos; lia|]. split; [done|].
    split; [apply ceil_div_seconds|].
    intros Hmono. exfalso.
    destruct clock as [|t clock]; [discriminate|].
    assert (Ht : t ∈ t :: clock) by left.
    specialize (Hfree t Ht). rewrite <- Hb, Hu in Hfree.
    rewrite activeBlock_set in Hfree; [discriminate|done|].
    specialize (Hmono t Ht). lia.
  - rewrite Hat, Hwin, recent_app in E6. simpl in E6.
    rewrite (recent_all _ _ clock) in E6.
    2:{ intros a Ha. apply Hw; apply elem_of_app; [by left|right; left]. }
    rewrite length_app, Hlen, Hm, Hmax in E6.
    destruct (_ >=? 5) eqn:E.
    + inversion E6; subst. simpl. repeat split; try done.
      exists (ceil_div (windowMs rl) 1000), (t6 + windowMs rl).
      split; [done|]. split; [by apply ceil_div_pos|].
      split; [by rewrite lookup_insert_eq|].
      split; [|done].
      replace (t6 + windowMs rl - t6) with (windowMs rl) by lia.
      apply ceil_div_seconds.
    + rewrite Z.geb_leb in E. apply Z.leb_gt in E. lia.
Qed.

Lemma within_bounds lo hi w clock :
  Forall (fun now => lo <= now <= hi) clock -> hi - lo < w -> within w clock.
Proof.
  intros Hall Hw a b Ha Hb. rewrite Forall_forall in Hall.
  pose proof (Hall a Ha). pose proof (Hall b Hb). lia.
Qed.

Example checkLimit_sixth_denied_reset_restores_witness :
  let '(r6, rl6) :=
    checkLimit (checkLimits (new 5 300000) (str "vault-unlock")
                  [1000; 2000; 3000; 4000; 5000]).2 (str "vault-unlock") 6000 in
  allowed r6 = false /\
  (exists secs deadline,
     retryAfter r6 = Some secs /\ 0 < secs /\
     blockedUntil rl6 !! str "vault-unlock" = Some deadline /\
     1000 * (secs - 1) < deadline - 6000 <= 1000 * secs /\
     ((forall t, t ∈ [1000; 2000; 3000; 4000; 5000] -> t <= 6000) ->
      deadline = 6000 + windowMs (new 5 300000))) /\
  attemptsLeft r6 = None /\
  forall now, (checkLimit (reset rl6 (str "vault-unlock")) (str "vault-unlock") now).1
              = mkResult true None (Some 4) None.
Proof.
  apply (checkLimit_sixth_denied_reset_restores (new 5 300000) (str "vault-unlock")
           [1000; 2000; 3000; 4000; 5000] 6000
           (checkLimits (new 5 300000) (str "vault-unlock")
              [1000; 2000; 3000; 4000; 5000]).1).
  - reflexivity.
  - reflexivity.
  - apply (within_bounds 1000 6000); [repeat constructor; lia | vm_compute; reflexivity].
  - apply surjective_pairing.
  - vm_compute. repeat constructor.
Defined.

(** While a block is in force a call returns the seconds left and leaves
    the limiter as it was. *)
Lemma checkLimit_blocked rl id now u :
  blockedUntil rl !! id = Some u -> u <> 0 -> now < u ->
  checkLimit rl id now =
    (mkResult false (Some (ceil_div (u - now) 1000)) None
       (Some (str "Muitas tentativas. Tente novamente em "
              ++ toString (ceil_div (u - now) 1000) ++ str "s")),
     rl).
Proof.
  intros Hb Hu Hlt. unfold checkLimit. by rewrite Hb, activeBlock_set.
Qed.

Lemma checkLimits_blocked rl id u clock :
  blockedUntil rl !! id = Some u -> u <> 0 ->
  Forall (fun now => now < u) clock ->
  (checkLimits rl id clock).2 = rl /\
  Forall2 (fun now r => allowed r = false /\ attemptsLeft r = None /\
                        retryAfter r = Some (ceil_div (u - now) 1000) /\
                        0 < ceil_div (u - now) 1000)
          clock (checkLimits rl id clock).1.
Proof.
  intros Hb Hu. induction 1 as [|now clock Hlt Hall [IH1 IH2]]; [by split; constructor|].
  cbn [checkLimits]. rewrite (checkLimit_blocked rl id now u Hb Hu Hlt).
  destruct (checkLimits rl id clock) as [rs rl2]. simpl in *. split; [done|].
  constructor; [|done]. repeat split. apply ceil_div_pos. lia.
Qed.

(** A call that is denied although no block was in force is the one that
    sets the block: the history had reached the limit. *)
Lemma checkLimit_sets_block rl id now r rl' :
  checkLimit rl id now = (r, rl') ->
  activeBlock (blockedUntil rl !! id) now = None -> allowed r = false ->
  rl' = mk (attempts rl) (maxAttempts rl) (windowMs rl)
           (<[id := now + windowMs rl]> (blockedUntil rl)) /\
  retryAfter r = Some (ceil_div (windowMs rl) 1000).
Proof.
  unfold checkLimit. intros H Hfree Ha. rewrite Hfree in H.
  destruct (_ >=? _); inversion H; subst; [done|discriminate].
Qed.

(** C7. Once [checkLimit] has set a block at clock reading [t0], the block
    deadline is exactly [t0 + windowMs]; the attempt history is left as it
    was; every later run of calls made before that deadline is denied, each
    call reporting the seconds that remain, and leaves the limiter unchanged
    (so no attempt is recorded); and from the deadline on the block is no
    longer in force. *)
Theorem checkLimit_block_lasts_one_window rl id t0 r rl0 :
  0 <= t0 -> 0 < windowMs rl ->
  checkLimit rl id t0 = (r, rl0) ->
  activeBlock (blockedUntil rl !! id) t0 = None ->
  allowed r = false ->
  blockedUntil rl0 !! id = Some (t0 + windowMs rl) /\
  attempts rl0 = attempts rl /\
  (forall clock, Forall (fun now => now < t0 + windowMs rl) clock ->
     (checkLimits rl0 id clock).2 = rl0 /\
     Forall2 (fun now r' =>
                allowed r' = false /\ attemptsLeft r' = None /\
                retryAfter r' = Some (ceil_div (t0 + windowMs rl - now) 1000) /\
                0 < ceil_div (t0 + windowMs rl - now) 1000)
             clock (checkLimits rl0 id clock).1) /\
  (forall now, t0 + windowMs rl <= now ->
     activeBlock (blockedUntil rl0 !! id) now = None).
Proof.
  intros Ht0 Hw Hcall Hfree Hden.
  destruct (checkLimit_sets_block _ _ _ _ _ Hcall Hfree Hden) as [-> _].
  cbn [blockedUntil attempts]. rewrite lookup_insert_eq.
  split; [done|]. split; [done|]. split.
  - intros clock Hclock.
    apply checkLimits_blocked; [cbn; by rewrite lookup_insert_eq | lia | done].
  - intros now Hnow. by apply activeBlock_over.
Qed.

Example checkLimit_block_lasts_one_window_witness :
  let rl := (checkLimits (new 5 300000) (str "zk-proof")
               [1000; 2000; 3000; 4000; 5000]).2 in
  let rl0 := (checkLimit rl (str "zk-proof") 6000).2 in
  blockedUntil rl0 !! str "zk-proof" = Some (6000 + windowMs rl) /\
  attempts rl0 = attempts rl /\
  (forall clock, Forall (fun now => now < 6000 + windowMs rl) clock ->
     (checkLimits rl0 (str "zk-proof") clock).2 = rl0 /\
     Forall2 (fun now r' =>
                allowed r' = false /\ attemptsLeft r' = None /\
                retryAfter r' = Some (ceil_div (6000 + windowMs rl - now) 1000) /\
                0 < ceil_div (6000 + windowMs rl - now) 1000)
             clock (checkLimits rl0 (str "zk-proof") clock).1) /\
  (forall now, 6000 + windowMs rl <= now ->
     activeBlock (blockedUntil rl0 !! str "zk-proof") now = None).
Proof.
  intros rl rl0.
  apply (checkLimit_block_lasts_one_window rl (str "zk-proof") 6000
           (checkLimit rl (str "zk-proof") 6000).1 rl0).
  - lia.
  - vm_compute. reflexivity.
  - apply surjective_pairing.
  - vm_compute. reflexivity.
  - vm_compute. reflexivity.
Defined.

(** Once the deadline of a block has passed, the next call is allowed and
    counted as the first attempt of a new window, when the clock had not
    run backwards: the readings in the history are not later than the
    reading at which the block was set. *)
Theorem checkLimit_allowed_after_block rl id t0 r rl0 now :
  0 <= t0 -> 0 < windowMs rl -> 0 < maxAttempts rl ->
  Forall (fun time => time <= t0) (default [] (attempts rl !! id)) ->
  checkLimit rl id t0 = (r, rl0) ->
  activeBlock (blockedUntil rl !! id) t0 = None ->
  allowed r = false ->
  t0 + windowMs rl <= now ->
  checkLimit rl0 id now =
    (mkResult true None (Some (maxAttempts rl - 1)) None,
     mk (<[id := [now]]> (attempts rl)) (maxAttempts rl) (windowMs rl)
        (<[id := t0 + windowMs rl]> (blockedUntil rl))).
Proof.
  intros Ht0 Hw Hm Hhist Hcall Hfree Hden Hnow.
  destruct (checkLimit_sets_block _ _ _ _ _ Hcall Hfree Hden) as [-> _].
  unfold checkLimit. cbn [blockedUntil attempts maxAttempts windowMs].
  rewrite lookup_insert_eq, activeBlock_over by done.
  rewrite recent_none.
  2:{ intros a Ha. rewrite Forall_forall in Hhist. specialize (Hhist a Ha). lia. }
  cbn [length app]. change (Z.of_nat 0) with 0.
  destruct (0 >=? maxAttempts rl) eqn:E; [apply Z.geb_le in E; lia|].
  reflexivity.
Qed.

Example checkLimit_allowed_after_block_witness :
  let rl := (checkLimits (new 5 300000) (str "vault-unlock")
               [1000; 2000; 3000; 4000; 5000]).2 in
  checkLimit (checkLimit rl (str "vault-unlock") 6000).2 (str "vault-unlock") 306000 =
    (mkResult true None (Some (maxAttempts rl - 1)) None,
     mk (<[str "vault-unlock" := [306000]]> (attempts rl)) (maxAttempts rl)
        (windowMs rl)
        (<[str "vault-unlock" := 6000 + windowMs rl]> (blockedUntil rl))).
Proof.
  intros rl.
  apply (checkLimit_allowed_after_block rl (str "vault-unlock") 6000
           (checkLimit rl (str "vault-unlock") 6000).1).
  - lia.
  - vm_compute. reflexivity.
  - vm_compute. reflexivity.
  - vm_compute. repeat constructor; discriminate.
  - apply surjective_pairing.
  - vm_compute. reflexivity.
  - vm_compute. reflexivity.
  - vm_compute. discriminate.
Defined.

(** [getStatus] foretells [checkLimit] at the same clock reading. When it
    reports a block, the call is denied with the same seconds to wait and
    changes nothing. When it reports no block and attempts left, the call is
    allowed and reports one attempt less. When it reports no block and no
    attempt left, the call is denied all the same and sets the block. *)
Theorem getStatus_foretells_checkLimit rl id now :
  let s := getStatus rl id now in
  let r := (checkLimit rl id now).1 in
  let rl' := (checkLimit rl id now).2 in
  (blocked s = true ->
     allowed r = false /\ retryAfter r = statusRetryAfter s /\ rl' = rl) /\
  (blocked s = false ->
     forall left, statusAttemptsLeft s = Some left ->
       (0 < left -> allowed r = true /\ attemptsLeft r = Some (left - 1)) /\
       (left <= 0 -> allowed r = false /\
                     blockedUntil rl' !! id = Some (now + windowMs rl))).
Proof.
  cbn zeta. unfold getStatus, checkLimit.
  destruct (activeBlock (blockedUntil rl !! id) now) as [u|]; cbn.
  - split; [done|discriminate].
  - split; [discriminate|]. intros _ left [= <-].
    set (n := Z.of_nat (length (recent (windowMs rl) now (default [] (attempts rl !! id))))).
    destruct (n >=? maxAttempts rl) eqn:E.
    + apply Z.geb_le in E. cbn. split; [lia|]. intros _.
      by rewrite lookup_insert_eq.
    + rewrite Z.geb_leb in E. apply Z.leb_gt in E. cbn. split; [|lia].
      intros _. split; [done|]. f_equal. rewrite length_app. cbn. subst n. lia.
Qed.

(** Identifiers are independent: a [checkLimit] or a [reset] on one
    identifier changes neither the status nor the outcome of a call on
    another identifier. *)
Theorem identifiers_independent rl id id' c now :
  (c = CheckLimit id now \/ c = Reset id) -> id <> id' ->
  forall now',
    getStatus (perform rl c) id' now' = getStatus rl id' now' /\
    (checkLimit (perform rl c) id' now').1 = (checkLimit rl id' now').1.
Proof.
  intros Hc Hne now'.
  assert (H : attempts (perform rl c) !! id' = attempts rl !! id' /\
              blockedUntil (perform rl c) !! id' = blockedUntil rl !! id' /\
              maxAttempts (perform rl c) = maxAttempts rl /\
              windowMs (perform rl c) = windowMs rl).
  { destruct Hc as [-> | ->]; cbn [perform].
    - unfold checkLimit. destruct (activeBlock _ _); [done|].
      destruct (_ >=? _); cbn; by rewrite ?lookup_insert_ne.
    - unfold reset. cbn. by rewrite !lookup_delete_ne. }
  destruct H as (Ha & Hb & Hm & Hw).
  unfold getStatus, checkLimit. rewrite Ha, Hb, Hm, Hw.
  split; [done|]. destruct (activeBlock _ _); [done|]. by destruct (_ >=? _).
Qed.

Example identifiers_independent_witness :
  getStatus (perform (new 5 300000) (CheckLimit (str "vault-unlock") 1000))
            (str "zk-proof") 2000
    = getStatus (new 5 300000) (str "zk-proof") 2000 /\
  (checkLimit (perform (new 5 300000) (CheckLimit (str "vault-unlock") 1000))
              (str "zk-proof") 2000).1
    = (checkLimit (new 5 300000) (str "zk-proof") 2000).1.
Proof.
  apply (identifiers_independent (new 5 300000) (str "vault-unlock")
           (str "zk-proof") (CheckLimit (str "vault-unlock") 1000) 1000).
  - left. reflexivity.
  - discriminate.
Defined.

Lemma checkLimit_params rl id now :
  maxAttempts (checkLimit rl id now).2 = maxAttempts rl /\
  windowMs (checkLimit rl id now).2 = windowMs rl.
Proof.
  unfold checkLimit. destruct (activeBlock _ _); [done|]. by destruct (_ >=? _).
Qed.

Lemma checkLimit_bounded rl id now :
  (forall i l, attempts rl !! i = Some l -> Z.of_nat (length l) <= maxAttempts rl) ->
  forall i l, attempts (checkLimit rl id now).2 !! i = Some l ->
              Z.of_nat (length l) <= maxAttempts (checkLimit rl id now).2.
Proof.
  intros Hb i l. unfold checkLimit. destruct (activeBlock _ _); [apply Hb|].
  destruct (_ >=? _) eqn:E; cbn; [apply Hb|].
  rewrite Z.geb_leb in E. apply Z.leb_gt in E.
  destruct (decide (id = i)) as [->|Hne].
  - rewrite lookup_insert_eq. intros [= <-]. rewrite length_app. cbn. lia.
  - rewrite lookup_insert_ne by done. apply Hb.
Qed.

(** The history the limiter keeps for an identifier never holds more
    readings than [maxAttempts], whatever calls are made on a limiter that
    starts empty; and an allowed call reports a number of attempts left
    between zero and [maxAttempts - 1]. *)
Theorem history_bounded m w calls :
  let rl := performAll (new m w) calls in
  (forall id l, attempts rl !! id = Some l -> Z.of_nat (length l) <= m) /\
  (forall id now left,
     allowed (checkLimit rl id now).1 = true ->
     attemptsLeft (checkLimit rl id now).1 = Some left -> 0 <= left < m).
Proof.
  cbn zeta.
  assert (H : forall rl0,
    maxAttempts rl0 = m ->
    (forall i l, attempts rl0 !! i = Some l -> Z.of_nat (length l) <= m) ->
    maxAttempts (performAll rl0 calls) = m /\
    forall i l, attempts (performAll rl0 calls) !! i = Some l ->
                Z.of_nat (length l) <= m).
  { unfold performAll. induction calls as [|c calls IH]; intros rl0 Hm Hb; [done|].
    cbn [fold_left]. apply IH.
    - destruct c as [id now|id]; cbn [perform]; [|done].
      by rewrite (proj1 (checkLimit_params rl0 id now)).
    - destruct c as [id now|id]; cbn [perform].
      + intros i l Hl. rewrite <- Hm in Hb.
        pose proof (checkLimit_bounded rl0 id now Hb i l Hl) as Hc.
        by rewrite (proj1 (checkLimit_params rl0 id now)), Hm in Hc.
      + intros i l. unfold reset. cbn. intros Hl.
        apply lookup_delete_Some in Hl as [_ Hl]. by apply (Hb i). }
  destruct (H (new m w)) as [Hm Hb]; [done|by intros i l; cbn; rewrite lookup_empty|].
  split; [exact Hb|]. intros id now left. unfold checkLimit.
  destruct (activeBlock _ _); [discriminate|].
  destruct (_ >=? _) eqn:E; [discriminate|]. cbn. intros _ [= <-].
  rewrite Z.geb_leb in E. apply Z.leb_gt in E. rewrite Hm in *.
  rewrite length_app. cbn. lia.
Qed.

End RateLimiterFacts.

(** ** Key cache *)

Section KeyCacheFacts.
Import KeyCache.
Context {V : Type}.

Implicit Types (c : KeyCache.t V) (key : jsstring) (it : item V) (now : Z).

(** A read that is not past the expiry returns the stored value and changes
    nothing of the entry but its hit counter. *)
Lemma get_live c key it now :
  cache c !! key = Some it -> now <= expiresAt it ->
  get c key now =
    (Some (value it),
     mk (<[key := mkItem (value it) (expiresAt it) (createdAt it) (hits it + 1)]>
           (cache c)) (defaultTTL c)).
Proof.
  intros Hit Hnow. unfold get. rewrite Hit.
  assert ((now >? expiresAt it) = false) as ->; [|done].
  rewrite Z.gtb_ltb. apply Z.ltb_ge. lia.
Qed.

(** A read past the expiry returns [null] and deletes the entry. *)
Lemma get_expired c key it now :
  cache c !! key = Some it -> expiresAt it < now ->
  get c key now = (None, mk (delete key (cache c)) (defaultTTL c)).
Proof.
  intros Hit Hnow. unfold get. rewrite Hit.
  assert ((now >? expiresAt it) = true) as ->; [|done].
  rewrite Z.gtb_ltb. apply Z.ltb_lt. lia.
Qed.

(** Reads up to the expiry: each returns the value, and the entry keeps its
    value, its expiry and its creation time. *)
Lemma gets_live key clock : forall c it,
  cache c !! key = Some it ->
  Forall (fun now => now <= expiresAt it) clock ->
  Forall (fun v => v = Some (value it)) (gets c key clock).1 /\
  exists it', cache (gets c key clock).2 !! key = Some it' /\
              value it' = value it /\ expiresAt it' = expiresAt it /\
              createdAt it' = createdAt it /\
              hits it' = hits it + Z.of_nat (length clock).
Proof.
  induction clock as [|now clock IH]; intros c it Hit Hall.
  - simpl. split; [constructor|]. exists it. repeat split; try done. lia.
  - apply Forall_cons in Hall as [Hnow Hall]. cbn [gets].
    rewrite (get_live c key it now Hit Hnow).
    set (it1 := mkItem _ _ _ _). set (c1 := mk _ _).
    destruct (IH c1 it1) as [Hvs (it' & Hit' & Hv & He & Hc & Hh)].
    { subst c1. cbn. by rewrite lookup_insert_eq. }
    { done. }
    destruct (gets c1 key clock) as [vs c2]. cbn in *. split.
    + by constructor.
    + exists it'. repeat split; try done. lia.
Qed.

(** C3. After [set] for the cache key of a (password, salt) pair with a
    time-to-live that is not negative: a [get] at the same clock reading
    returns the stored key; after any run of [get] calls made up to the
    expiry, every one of them has returned the key and the entry's expiry
    is still the one computed at insertion; and a [get] made past the
    expiry returns [null] and leaves the cache without the entry. *)
Theorem get_after_set_until_expiry c password s (k : V) ttl t0 t0' :
  let key := generateCacheKey password s in
  let life := default (defaultTTL c) ttl in
  let c1 := set c key k ttl t0 t0' in
  0 <= life ->
  (get c1 key t0).1 = Some k /\
  forall clock, Forall (fun now => now <= t0 + life) clock ->
    let c2 := (gets c1 key clock).2 in
    Forall (fun v => v = Some k) (gets c1 key clock).1 /\
    expiresAt <$> (cache c2 !! key) = Some (t0 + life) /\
    forall now, t0 + life < now ->
      (get c2 key now).1 = None /\ cache (get c2 key now).2 !! key = None.
Proof.
  intros key life c1 Hlife.
  set (it := mkItem k (t0 + life) t0' 0).
  assert (Hit : cache c1 !! key = Some it).
  { subst c1. unfold set. cbn. by rewrite lookup_insert_eq. }
  split.
  - rewrite (get_live c1 key it t0 Hit); [done|]. cbn. lia.
  - intros clock Hclock c2.
    destruct (gets_live key clock c1 it Hit Hclock) as [Hvs (it' & Hit' & Hv & He & _)].
    split; [done|]. fold c2 in Hit'. rewrite Hit'. split; [cbn; by rewrite He|].
    intros now Hnow. rewrite (get_expired c2 key it' now Hit') by (rewrite He; cbn; lia).
    cbn. by rewrite lookup_delete_eq.
Qed.

End KeyCacheFacts.

Section CacheKeyFacts.
Import KeyCache.

Example get_after_set_until_expiry_witness :
  let key := generateCacheKey (str "hunter2") (SaltBytes [1; 2; 3]) in
  let c1 := set (new 300000) key 7 (Some 1000) 5000 5000 in
  (get c1 key 5000).1 = Some 7 /\
  forall clock, Forall (fun now => now <= 5000 + 1000) clock ->
    let c2 := (gets c1 key clock).2 in
    Forall (fun v => v = Some 7) (gets c1 key clock).1 /\
    expiresAt <$> (cache c2 !! key) = Some (5000 + 1000) /\
    forall now, 5000 + 1000 < now ->
      (get c2 key now).1 = None /\ cache (get c2 key now).2 !! key = None.
Proof.
  apply (get_after_set_until_expiry (V := Z) (new 300000) (str "hunter2")
           (SaltBytes [1; 2; 3]) 7 (Some 1000) 5000 5000).
  simpl. lia.
Defined.

Lemma digit_char_not_underscore d : 0 <= d < 36 -> digit_char d <> 95.
Proof. unfold digit_char. destruct (d <? 10) eqn:E; [apply Z.ltb_lt in E|]; lia. Qed.

Lemma digits_of_no_underscore fuel : forall n acc,
  95 ∉ acc -> 95 ∉ digits_of fuel 36 n acc.
Proof.
  induction fuel as [|fuel IH]; intros n acc Hacc; [done|]. cbn [digits_of].
  assert (Hacc' : 95 ∉ digit_char (n mod 36) :: acc).
  { apply not_elem_of_cons. split; [|done].
    intros E. symmetry in E. revert E. apply digit_char_not_underscore.
    apply Z.mod_pos_bound. lia. }
  destruct (n / 36 =? 0); [done|]. by apply IH.
Qed.

(** The separator of the template does not occur in a printed hash. *)
Lemma simpleHash_no_underscore s : 95 ∉ simpleHash s.
Proof.
  unfold simpleHash, toStringRadix.
  assert ((Z.abs (hash32 s) <? 0) = false) as -> by (apply Z.ltb_ge; lia).
  apply digits_of_no_underscore. apply not_elem_of_nil.
Qed.

(** Two strings cut at the first occurrence of a separator. *)
Lemma app_sep_inj (x : Z) (a c b d : list Z) :
  x ∉ a -> x ∉ c -> a ++ x :: b = c ++ x :: d -> a = c /\ b = d.
Proof.
  revert c. induction a as [|y a IH]; intros [|z c] Ha Hc E; simpl in E.
  - by inversion E.
  - inversion E; subst. exfalso. apply Hc. left.
  - inversion E; subst. exfalso. apply Ha. left.
  - inversion E; subst. apply not_elem_of_cons in Ha as [_ Ha].
    apply not_elem_of_cons in Hc as [_ Hc].
    destruct (IH c Ha Hc) as [-> ->]; done.
Qed.

Lemma generateCacheKey_eq_iff p1 s1 p2 s2 :
  generateCacheKey p1 s1 = generateCacheKey p2 s2 <->
  simpleHash p1 = simpleHash p2 /\
  simpleHash (saltStr s1) = simpleHash (saltStr s2).
Proof.
  unfold generateCacheKey. change (str "_") with [95]. cbn [app]. split.
  - apply app_sep_inj; apply simpleHash_no_underscore.
  - by intros [-> ->].
Qed.

(** A write under one cache key is not seen by a read under another. *)
Lemma get_set_other {V} (c : KeyCache.t V) key key' v ttl t t' now :
  key <> key' ->
  (get (set c key' v ttl t t') key now).1 = (get c key now).1.
Proof.
  intros Hne. unfold get, set. cbn [cache defaultTTL].
  rewrite lookup_insert_ne by done.
  destruct (cache c !! key) as [it|]; [|done].
  by destruct (now >? expiresAt it).
Qed.

(** The claim C8 fails as stated: the passwords "Aa" and "BB" are distinct,
    hash to the same 32-bit value, so with one salt they get one cache key,
    and a read for the second pair returns what was stored for the first. *)
Lemma cache_key_collision :
  (str "Aa", SaltBytes [1; 2; 3]) <> (str "BB", SaltBytes [1; 2; 3]) /\
  generateCacheKey (str "Aa") (SaltBytes [1; 2; 3])
    = generateCacheKey (str "BB") (SaltBytes [1; 2; 3]) /\
  (get (set (new 300000) (generateCacheKey (str "Aa") (SaltBytes [1; 2; 3]))
            1001 None 0 0)
       (generateCacheKey (str "BB") (SaltBytes [1; 2; 3])) 1).1 = Some 1001.
Proof. split; [discriminate|]. split; vm_compute; reflexivity. Qed.

(** C8, amended. The cache key is the printed hash of the password, an
    underscore, and the printed hash of the salt string: two (password,
    salt) pairs get the same cache key exactly when their printed hashes
    agree on both parts; and whenever the cache keys of two pairs differ, a
    [get] for one does not see a value stored with [set] for the other. *)
Theorem cache_keys_separate_by_hash {V} (c : KeyCache.t V)
    p1 s1 p2 s2 (v : V) ttl t t' now :
  (generateCacheKey p1 s1 = generateCacheKey p2 s2 <->
     simpleHash p1 = simpleHash p2 /\
     simpleHash (saltStr s1) = simpleHash (saltStr s2)) /\
  (generateCacheKey p1 s1 <> generateCacheKey p2 s2 ->
     (get (set c (generateCacheKey p2 s2) v ttl t t')
          (generateCacheKey p1 s1) now).1
     = (get c (generateCacheKey p1 s1) now).1).
Proof.
  split; [apply generateCacheKey_eq_iff|]. apply get_set_other.
Qed.

End CacheKeyFacts.

Section KeyCacheSweepFacts.
Import KeyCache.
Context {V : Type}.

Implicit Types (c : KeyCache.t V) (key : jsstring) (it : item V) (now : Z).

(** [cleanup] removes the entries whose expiry is past and no other: an
    entry that is left is the entry that was there, the number returned is
    the number of entries that went, and no later [get] tells a swept cache
    from the cache as it was. *)
Theorem cleanup_sweeps_expired c now :
  let c' := (cleanup c now).2 in
  (forall key,
     cache c' !! key =
       match cache c !! key with
       | Some it => if decide (expiresAt it < now) then None else Some it
       | None => None
       end) /\
  ((cleanup c now).1 + size (cache c') = size (cache c))%nat /\
  (forall key now', now <= now' -> (get c' key now').1 = (get c key now').1).
Proof.
  cbn zeta. unfold cleanup. cbn [fst snd cache].
  assert (Hlook : forall key,
    filter (fun kv : jsstring * item V => ~ expiresAt kv.2 < now) (cache c) !! key =
      match cache c !! key with
      | Some it => if decide (expiresAt it < now) then None else Some it
      | None => None
      end).
  { intros key. rewrite map_lookup_filter.
    destruct (cache c !! key) as [it|]; [|done]. cbn.
    destruct (decide (expiresAt it < now)); case_guard; cbn in *; done. }
  split; [exact Hlook|]. split.
  - rewrite <- (map_filter_union_complement
                  (fun kv : jsstring * item V => expiresAt kv.2 < now) (cache c)) at 3.
    rewrite map_size_disj_union; [done|]. apply map_disjoint_filter_complement.
  - intros key now' Hnow. unfold get. cbn [cache]. rewrite Hlook.
    destruct (cache c !! key) as [it|]; [|done].
    destruct (decide (expiresAt it < now)) as [Hexp|Hlive].
    + assert ((now' >? expiresAt it) = true) as ->; [|done].
      rewrite Z.gtb_ltb. apply Z.ltb_lt. lia.
    + by destruct (now' >? expiresAt it).
Qed.

(** [extend] moves the expiry of a stored entry without looking at the
    clock: after it the entry is served up to the new expiry, also when the
    old expiry had passed and the entry was still in the map. On a key
    that is not stored it returns [false] and changes nothing. *)
Theorem extend_moves_expiry c key it additionalTime now :
  cache c !! key = Some it ->
  now <= expiresAt it + additionalTime ->
  (extend c key additionalTime).1 = true /\
  (get (extend c key additionalTime).2 key now).1 = Some (value it) /\
  (forall key', cache c !! key' = None ->
     extend c key' additionalTime = (false, c)).
Proof.
  intros Hit Hnow. unfold extend. rewrite Hit. cbn [fst snd]. split; [done|]. split.
  - set (it' := mkItem (value it) (expiresAt it + additionalTime) (createdAt it) (hits it)).
    rewrite (get_live _ key it' now); [done| |cbn; lia].
    cbn [cache]. by rewrite lookup_insert_eq.
  - intros key' Hnone. by rewrite Hnone.
Qed.

(** A positive answer of [getTimeToExpire] is a guarantee: up to that many
    milliseconds later a [get] still returns the stored value. *)
Theorem getTimeToExpire_guarantee c key now remaining :
  getTimeToExpire c key now = Some remaining -> 0 < remaining ->
  exists it, cache c !! key = Some it /\
    forall now', now' <= now + remaining -> (get c key now').1 = Some (value it).
Proof.
  unfold getTimeToExpire. destruct (cache c !! key) as [it|] eqn:Hit; [|discriminate].
  destruct (expiresAt it - now >? 0) eqn:E; intros [= <-] Hpos; [|lia].
  exists it. split; [done|]. intros now' Hnow'.
  rewrite (get_live c key it now' Hit); [done|lia].
Qed.

End KeyCacheSweepFacts.

Example extend_moves_expiry_witness :
  let c := KeyCache.set (KeyCache.new 300000) (str "k") 7 (Some 1000) 5000 5000 in
  (KeyCache.extend c (str "k") 60000).1 = true /\
  (KeyCache.get (KeyCache.extend c (str "k") 60000).2 (str "k") 9000).1 = Some 7 /\
  (forall key', KeyCache.cache c !! key' = None ->
     KeyCache.extend c key' 60000 = (false, c)).
Proof.
  intros c.
  apply (extend_moves_expiry (V := Z) c (str "k")
           (KeyCache.mkItem 7 6000 5000 0) 60000 9000).
  - vm_compute. reflexivity.
  - simpl. lia.
Defined.

Example getTimeToExpire_guarantee_witness :
  let c := KeyCache.set (KeyCache.new 300000) (str "k") 7 (Some 1000) 5000 5000 in
  exists it, KeyCache.cache c !! str "k" = Some it /\
    forall now', now' <= 5400 + 600 ->
      (KeyCache.get c (str "k") now').1 = Some (KeyCache.value it).
Proof.
  intros c.
  apply (getTimeToExpire_guarantee (V := Z) c (str "k") 5400 600).
  - vm_compute. reflexivity.
  - lia.
Defined.

Section CachedCryptoFacts.
Import Host KeyCache.
Context {H : Subtle}.

(** Repeated derivation through the cache for one password and salt,
    starting from a cache that holds nothing else under their cache key:
    every call, whenever it is made, returns the key that
    [e2eeCrypto.deriveKeyFromPassword] derives. A new cache is such a
    cache; one that has served a password with the same cache key is not. *)
Theorem cached_derivation_returns_derived_key
    (keyCache : KeyCache.t CryptoKey) password salt clock :
  (forall it, cache keyCache !! generateCacheKey password (SaltBytes salt) = Some it ->
              value it = E2EECrypto.deriveKeyFromPassword password salt) ->
  Forall (fun k => k = E2EECrypto.deriveKeyFromPassword password salt)
         (CachedCrypto.deriveKeysFromPassword keyCache password salt clock).1.
Proof.
  set (key := generateCacheKey password (SaltBytes salt)).
  set (dk := E2EECrypto.deriveKeyFromPassword password salt).
  revert keyCache.
  induction clock as [|[[now now'] now''] clock IH]; intros c Hinv; [constructor|].
  cbn [CachedCrypto.deriveKeysFromPassword].
  unfold CachedCrypto.deriveKeyFromPassword. fold key. fold dk.
  unfold get. destruct (cache c !! key) as [it|] eqn:Hit.
  - destruct (now >? expiresAt it).
    + set (c1 := set _ _ _ _ _ _). specialize (IH c1).
      destruct (CachedCrypto.deriveKeysFromPassword c1 password salt clock).
      cbn. constructor; [done|]. apply IH.
      intros it'. subst c1. unfold set. cbn [cache]. rewrite lookup_insert_eq.
      by intros [= <-].
    + set (c1 := mk _ _). specialize (IH c1).
      destruct (CachedCrypto.deriveKeysFromPassword c1 password salt clock).
      cbn. constructor; [by apply Hinv|]. apply IH.
      intros it'. subst c1. cbn [cache]. rewrite lookup_insert_eq.
      intros [= <-]. cbn. by apply Hinv.
  - set (c1 := set _ _ _ _ _ _). specialize (IH c1).
    destruct (CachedCrypto.deriveKeysFromPassword c1 password salt clock).
    cbn. constructor; [done|]. apply IH.
    intros it'. subst c1. unfold set. cbn [cache]. rewrite lookup_insert_eq.
    by intros [= <-].
Qed.

End CachedCryptoFacts.

Example cached_derivation_returns_derived_key_witness :
  Forall (fun k => k = E2EECrypto.deriveKeyFromPassword (H := Host.reference)
                         (str "Aa") [1; 2; 3])
         (CachedCrypto.deriveKeysFromPassword CachedCrypto.new (str "Aa") [1; 2; 3]
            [(0, 0, 0); (1000, 1000, 1000); (400000, 400000, 400001)]).1.
Proof.
  apply (cached_derivation_returns_derived_key (H := Host.reference)).
  intros it Hit. vm_compute in Hit. discriminate.
Defined.

(** The cache key is a pair of 32-bit hashes, and the cached wrapper trusts
    it: after a derivation for "Aa", a derivation for "BB" with the same
    salt is served the key of "Aa", which is not the key of "BB". *)
Lemma cached_derivation_serves_colliding_key :
  let '(kA, c1) := CachedCrypto.deriveKeyFromPassword (H := Host.reference)
                     CachedCrypto.new (str "Aa") [1; 2; 3] 0 0 0 in
  let '(kB, _) := CachedCrypto.deriveKeyFromPassword c1 (str "BB") [1; 2; 3] 1 1 1 in
  kB = kA /\
  kB <> E2EECrypto.deriveKeyFromPassword (H := Host.reference) (str "BB") [1; 2; 3].
Proof. vm_compute. split; [reflexivity|discriminate]. Qed.

(** ** Commitment engine *)

Section ZeroKnowledgeFacts.
Import ZeroKnowledge.

Implicit Types (zk : ZeroKnowledge.t) (cid : jsstring) (h : value) (now : Z).

Lemma and_truthy a b : truthy (and_ a b) = truthy a && truthy b.
Proof. unfold and_. by destruct (truthy a) eqn:E; [|rewrite E]. Qed.

Lemma isValid_complete p :
  truthy (and_ (and_ (commitment p) (response p)) (salt p)) = complete p.
Proof. by rewrite !and_truthy. Qed.

(** On a complete proof the conjunction evaluates to its last operand. *)
Lemma isValid_salt p :
  complete p = true ->
  and_ (and_ (commitment p) (response p)) (salt p) = salt p.
Proof.
  unfold complete. intros H.
  apply andb_true_iff in H as [H Hs]. apply andb_true_iff in H as [Hc Hr].
  unfold and_. by rewrite Hc, Hr.
Qed.

(** An unknown challenge id: the call returns [false] and changes nothing. *)
Lemma verifyPasswordProof_unknown zk p cid h now now' :
  challenges zk !! cid = None ->
  verifyPasswordProof zk p cid h now now' = (VBool false, zk).
Proof.
  intros H. unfold verifyPasswordProof, verifyPasswordProof_try. by rewrite H.
Qed.

(** A challenge older than five minutes: the call returns [false] and
    removes the challenge. *)
Lemma verifyPasswordProof_expired zk p cid h now now' cd :
  challenges zk !! cid = Some cd -> 300000 < now - timestamp cd ->
  verifyPasswordProof zk p cid h now now' =
    (VBool false, mk (delete cid (challenges zk)) (proofs zk)).
Proof.
  intros H Hage. unfold verifyPasswordProof, verifyPasswordProof_try. rewrite H.
  assert ((now - timestamp cd >? 300000) = true) as ->; [|done].
  rewrite Z.gtb_ltb. by apply Z.ltb_lt.
Qed.

(** A complete proof against a stored challenge that is not older than
    five minutes: the challenge is marked verified, a proof record is
    stored, and the value returned is the proof's [salt] property. *)
Lemma verifyPasswordProof_complete zk p cid h now now' cd :
  challenges zk !! cid = Some cd -> now - timestamp cd <= 300000 ->
  complete p = true ->
  verifyPasswordProof zk (Some p) cid h now now' =
    (salt p,
     mk (<[cid := mkChallenge (challenge cd) (timestamp cd) true]> (challenges zk))
        (<[cid := mkProofRecord true now']> (proofs zk))).
Proof.
  intros H Hage Hp. unfold verifyPasswordProof, verifyPasswordProof_try. rewrite H.
  assert ((now - timestamp cd >? 300000) = false) as ->.
  { rewrite Z.gtb_ltb. apply Z.ltb_ge. lia. }
  by rewrite isValid_complete, Hp, isValid_salt.
Qed.

(** The call succeeds, that is returns a truthy value, exactly when the
    challenge is stored, is not older than five minutes, and the proof is
    an object whose three properties are truthy. *)
Lemma verifyPasswordProof_truthy_iff zk p cid h now now' :
  truthy (verifyPasswordProof zk p cid h now now').1 = true <->
  exists cd q, challenges zk !! cid = Some cd /\ now - timestamp cd <= 300000 /\
               p = Some q /\ complete q = true.
Proof.
  unfold verifyPasswordProof, verifyPasswordProof_try.
  destruct (challenges zk !! cid) as [cd|] eqn:E; cbn.
  2:{ split; [discriminate|]. by intros (? & ? & ? & _). }
  destruct (now - timestamp cd >? 300000) eqn:Eage; cbn.
  { split; [discriminate|]. intros (cd' & q & [= <-] & Hage & _).
    rewrite Z.gtb_ltb in Eage. apply Z.ltb_lt in Eage. lia. }
  rewrite Z.gtb_ltb in Eage. apply Z.ltb_ge in Eage.
  destruct p as [q|]; cbn.
  2:{ split; [discriminate|]. by intros (? & ? & _ & _ & ? & _). }
  pose proof (isValid_complete q) as Hq.
  destruct (truthy (and_ (and_ (commitment q) (response q)) (salt q))) eqn:Ev; cbn.
  - rewrite Ev. split; [|done]. intros _. by exists cd, q.
  - rewrite Ev. split; [discriminate|]. intros (? & q' & _ & _ & [= <-] & Hc). congruence.
Qed.

(** C4, evaluated. A challenge of 32 bytes is issued at clock reading 1000
    and a proof with three hexadecimal strings is verified against it at
    2000: the challenge is marked verified and the proof record is stored,
    but the value returned is the [salt] string of the proof, not the
    boolean [true] that the documentation of the function announces. *)
Theorem verifyPasswordProof_returns_salt_not_true :
  let random := List.map Z.of_nat (seq 0 32) in
  let '((cid, _), zk) := generateChallenge new random 1000 in
  let p := mkProof (VString (str "c0ffee")) (VString (str "beef")) (VString (str "5a17")) in
  let '(v, zk') := verifyPasswordProof zk (Some p) cid (VString (str "stored")) 2000 2000 in
  v = VString (str "5a17") /\ v <> VBool true /\ truthy v = true /\
  verified <$> (challenges zk' !! cid) = Some true /\
  proofs zk' !! cid = Some (mkProofRecord true 2000).
Proof. vm_compute. repeat split; discriminate. Qed.

(** A run of calls with a complete proof, each made while the challenge is
    not older than five minutes: every call succeeds and the challenge
    stays stored with its creation time. *)
Lemma verifyPasswordProofs_complete p cid h clock : forall zk cd,
  challenges zk !! cid = Some cd -> complete p = true ->
  Forall (fun nn => nn.1 - timestamp cd <= 300000) clock ->
  Forall (fun v => v = salt p) (verifyPasswordProofs zk (Some p) cid h clock).1 /\
  exists cd', challenges (verifyPasswordProofs zk (Some p) cid h clock).2 !! cid = Some cd' /\
              timestamp cd' = timestamp cd /\ challenge cd' = challenge cd.
Proof.
  induction clock as [|[now now'] clock IH]; intros zk cd Hcd Hp Hall.
  - cbn. split; [constructor|]. by exists cd.
  - apply Forall_cons in Hall as [Hnow Hall]. cbn [verifyPasswordProofs].
    rewrite (verifyPasswordProof_complete zk p cid h now now' cd Hcd Hnow Hp).
    set (cd1 := mkChallenge _ _ _). set (zk1 := mk _ _).
    destruct (IH zk1 cd1) as [Hvs (cd' & Hcd' & Ht & Hc)]; try done.
    { subst zk1. cbn. by rewrite lookup_insert_eq. }
    destruct (verifyPasswordProofs zk1 (Some p) cid h clock) as [vs zk2]. cbn in *.
    split; [by constructor|]. by exists cd'.
Qed.

(** C9, evaluated: a challenge is issued at clock reading 1000, a complete
    proof is verified against it at 2000 and succeeds, and the same call
    made again at 3000 succeeds again. *)
Lemma challenge_verified_twice :
  let random := List.map Z.of_nat (seq 0 32) in
  let '((cid, _), zk) := generateChallenge new random 1000 in
  let p := mkProof (VString (str "c0ffee")) (VString (str "beef")) (VString (str "5a17")) in
  let '(v1, zk1) := verifyPasswordProof zk (Some p) cid (VString (str "stored")) 2000 2000 in
  let '(v2, zk2) := verifyPasswordProof zk1 (Some p) cid (VString (str "stored")) 3000 3000 in
  truthy v1 = true /\ truthy v2 = true.
Proof. vm_compute. split; reflexivity. Qed.

(** C9. The code does not do what the claim says. A successful
    [verifyPasswordProof] marks the challenge as verified, but no call reads
    the mark: a second call with the same challenge id and any complete
    proof, made while the challenge is not older than five minutes, finds
    the challenge stored and marked, and succeeds again. *)
Theorem verified_challenge_verifies_again zk p q cid h h' cd now1 now1' now2 now2' :
  challenges zk !! cid = Some cd ->
  complete p = true -> complete q = true ->
  now1 - timestamp cd <= 300000 -> now2 - timestamp cd <= 300000 ->
  let '(v1, zk1) := verifyPasswordProof zk (Some p) cid h now1 now1' in
  let '(v2, zk2) := verifyPasswordProof zk1 (Some q) cid h' now2 now2' in
  truthy v1 = true /\
  verified <$> (challenges zk1 !! cid) = Some true /\
  truthy v2 = true /\
  proofs zk2 !! cid = Some (mkProofRecord true now2').
Proof.
  intros Hcd Hp Hq Hage1 Hage2.
  rewrite (verifyPasswordProof_complete zk p cid h now1 now1' cd Hcd Hage1 Hp).
  set (cd1 := mkChallenge (challenge cd) (timestamp cd) true).
  set (zk1 := mk _ _).
  assert (Hcd1 : challenges zk1 !! cid = Some cd1).
  { subst zk1. cbn. by rewrite lookup_insert_eq. }
  rewrite (verifyPasswordProof_complete zk1 q cid h' now2 now2' cd1 Hcd1 Hage2 Hq).
  rewrite Hcd1. cbn [proofs]. rewrite lookup_insert_eq.
  unfold complete in Hp, Hq.
  apply andb_true_iff in Hp as [_ ->]. apply andb_true_iff in Hq as [_ ->]. done.
Qed.

(** The challenge stops being usable by age only. While a challenge is
    stored, every [verifyPasswordProof] call with its id and a structurally
    complete proof that is made no later than five minutes after the
    challenge was created succeeds, however many calls succeeded before; a
    call made later than that returns [false] and removes the challenge,
    and every call after the removal returns [false]. *)
Lemma challenge_usable_until_expiry zk p cid h cd clock :
  challenges zk !! cid = Some cd ->
  complete p = true ->
  Forall (fun nn => nn.1 - timestamp cd <= 300000) clock ->
  let zk1 := (verifyPasswordProofs zk (Some p) cid h clock).2 in
  Forall (fun v => truthy v = true)
         (verifyPasswordProofs zk (Some p) cid h clock).1 /\
  forall now now', 300000 < now - timestamp cd ->
    let zk2 := (verifyPasswordProof zk1 (Some p) cid h now now').2 in
    (verifyPasswordProof zk1 (Some p) cid h now now').1 = VBool false /\
    challenges zk2 !! cid = None /\
    forall q now2 now2',
      verifyPasswordProof zk2 q cid h now2 now2' = (VBool false, zk2).
Proof.
  intros Hcd Hp Hclock zk1.
  destruct (verifyPasswordProofs_complete p cid h clock zk cd Hcd Hp Hclock)
    as [Hvs (cd' & Hcd' & Ht & _)].
  fold zk1 in Hcd'. split.
  - eapply Forall_impl; [exact Hvs|]. intros v ->. cbn.
    unfold complete in Hp. by apply andb_true_iff in Hp as [_ ->].
  - intros now now' Hage zk2. subst zk2.
    rewrite (verifyPasswordProof_expired zk1 (Some p) cid h now now' cd' Hcd')
      by (rewrite Ht; done).
    cbn. rewrite lookup_delete_eq. split; [done|]. split; [done|].
    intros q now2 now2'. apply verifyPasswordProof_unknown. cbn.
    by rewrite lookup_delete_eq.
Qed.

(** C10. The stored password hash plays no part in [verifyPasswordProof]:
    with the same proof, challenge id, state and clock readings, two stored
    hashes give the same returned value and the same resulting state; and
    the call succeeds exactly when the challenge is stored and not older
    than five minutes and the proof is structurally complete. *)
Theorem verifyPasswordProof_ignores_stored_hash zk p cid h1 h2 now now' :
  verifyPasswordProof zk p cid h1 now now' = verifyPasswordProof zk p cid h2 now now' /\
  (truthy (verifyPasswordProof zk p cid h1 now now').1 = true <->
   exists cd q, challenges zk !! cid = Some cd /\ now - timestamp cd <= 300000 /\
                p = Some q /\ complete q = true).
Proof.
  split.
  - unfold verifyPasswordProof, verifyPasswordProof_try.
    destruct (challenges zk !! cid) as [cd|]; [|reflexivity].
    destruct (now - timestamp cd >? 300000); [reflexivity|].
    destruct p as [q|]; reflexivity.
  - apply verifyPasswordProof_truthy_iff.
Qed.

(** A proof that is not structurally complete, against a stored challenge
    that is not older than five minutes: the value returned is falsy and
    nothing is recorded. *)
Theorem verifyPasswordProof_incomplete zk p cid h now now' cd :
  challenges zk !! cid = Some cd -> now - timestamp cd <= 300000 ->
  complete p = false ->
  truthy (verifyPasswordProof zk (Some p) cid h now now').1 = false /\
  (verifyPasswordProof zk (Some p) cid h now now').2 = zk.
Proof.
  intros Hcd Hage Hp. unfold verifyPasswordProof, verifyPasswordProof_try.
  rewrite Hcd.
  assert ((now - timestamp cd >? 300000) = false) as ->.
  { rewrite Z.gtb_ltb. apply Z.ltb_ge. lia. }
  rewrite isValid_complete, Hp. cbn. by rewrite isValid_complete.
Qed.

End ZeroKnowledgeFacts.

Example verifyPasswordProof_incomplete_witness :
  let zk := (ZeroKnowledge.generateChallenge ZeroKnowledge.new [171; 5] 1000).2 in
  let p := ZeroKnowledge.mkProof (ZeroKnowledge.VString (str "c0ffee"))
             ZeroKnowledge.VUndefined (ZeroKnowledge.VString (str "5a17")) in
  ZeroKnowledge.truthy
    (ZeroKnowledge.verifyPasswordProof zk (Some p) (str "ab05")
       ZeroKnowledge.VNull 2000 2000).1 = false /\
  (ZeroKnowledge.verifyPasswordProof zk (Some p) (str "ab05")
     ZeroKnowledge.VNull 2000 2000).2 = zk.
Proof.
  intros zk p.
  apply (verifyPasswordProof_incomplete zk p (str "ab05") ZeroKnowledge.VNull
           2000 2000 (ZeroKnowledge.mkChallenge [171; 5] 1000 false)).
  - vm_compute. reflexivity.
  - simpl. lia.
  - reflexivity.
Defined.

Example verified_challenge_verifies_again_witness :
  let random := List.map Z.of_nat (seq 0 32) in
  let zk := (ZeroKnowledge.generateChallenge ZeroKnowledge.new random 1000).2 in
  let cid := ZeroKnowledge.arrayToHex random in
  let p := ZeroKnowledge.mkProof (ZeroKnowledge.VString (str "c0ffee"))
             (ZeroKnowledge.VString (str "beef")) (ZeroKnowledge.VString (str "5a17")) in
  let h := ZeroKnowledge.VString (str "stored") in
  let '(v1, zk1) := ZeroKnowledge.verifyPasswordProof zk (Some p) cid h 2000 2000 in
  let '(v2, zk2) := ZeroKnowledge.verifyPasswordProof zk1 (Some p) cid h 3000 3000 in
  ZeroKnowledge.truthy v1 = true /\
  ZeroKnowledge.verified <$> (ZeroKnowledge.challenges zk1 !! cid) = Some true /\
  ZeroKnowledge.truthy v2 = true /\
  ZeroKnowledge.proofs zk2 !! cid = Some (ZeroKnowledge.mkProofRecord true 3000).
Proof.
  intros random zk cid p h.
  apply (verified_challenge_verifies_again zk p p cid h h
           (ZeroKnowledge.mkChallenge random 1000 false) 2000 2000 3000 3000).
  - vm_compute. reflexivity.
  - reflexivity.
  - reflexivity.
  - simpl. lia.
  - simpl. lia.
Defined.

(** ** Commitment engine: hexadecimal strings, creation and the stateless
    verifiers *)

Section HexFacts.
Import Text ZeroKnowledge.

Lemma hexByte_readsBack b :
  isByte b ->
  exists h l, hexByte b = [h; l] /\ toUint8 (parseInt16 [h; l]) = b.
Proof.
  intros Hb. unfold isByte in Hb.
  assert (Hall : forallb hexByteReadsBack (seq 0 256) = true) by (vm_compute; reflexivity).
  rewrite forallb_forall in Hall.
  specialize (Hall (Z.to_nat b)). rewrite in_seq in Hall.
  assert (Hc : hexByteReadsBack (Z.to_nat b) = true) by (apply Hall; lia).
  unfold hexByteReadsBack in Hc. rewrite Z2Nat.id in Hc by lia.
  destruct (hexByte b) as [|h [|l [|? ?]]]; try discriminate.
  exists h, l. split; [done|]. by apply Z.eqb_eq.
Qed.

Lemma digits_of_nonempty radix fuel : forall n acc,
  acc <> [] -> digits_of fuel radix n acc <> [].
Proof.
  induction fuel as [|fuel IH]; intros n acc Hacc; [done|]. cbn [digits_of].
  destruct (n / radix =? 0); [done|]. by apply IH.
Qed.

Lemma hexByte_nonempty b : hexByte b <> [].
Proof.
  unfold hexByte, toStringRadix.
  set (ds := digits_of _ _ _ _).
  assert (ds <> []).
  { subst ds. cbn [digits_of]. destruct (_ =? 0); [done|]. by apply digits_of_nonempty. }
  destruct (b <? 0); destruct (Nat.ltb _ _); try done.
Qed.

Lemma hex_nonempty array : array <> [] -> hex array <> [].
Proof.
  destruct array as [|b array]; [done|]. intros _. unfold hex. cbn.
  pose proof (hexByte_nonempty b). by destruct (hexByte b).
Qed.

Lemma hex_readsBack array :
  Forall isByte array ->
  hexToArray (hex array) = array /\ length (hex array) = (2 * length array)%nat.
Proof.
  unfold hex. induction 1 as [|b array Hb _ [IH1 IH2]]; [done|].
  destruct (hexByte_readsBack b Hb) as (h & l & Hhex & Hback).
  cbn [List.map concat]. rewrite Hhex. cbn [app hexToArray length].
  rewrite Hback, IH1, IH2. split; [done|lia].
Qed.

(** [hexToArray] reads back what [arrayToHex] wrote from bytes, and the
    string written has two characters for each byte. *)
Theorem hexToArray_arrayToHex array :
  Forall isByte array ->
  hexToArray (arrayToHex array) = array /\
  length (arrayToHex array) = (2 * length array)%nat.
Proof.
  unfold arrayToHex, hex. induction 1 as [|b array Hb _ [IH1 IH2]]; [done|].
  destruct (hexByte_readsBack b Hb) as (h & l & Hhex & Hback).
  cbn [List.map concat]. rewrite Hhex. cbn [app hexToArray length].
  rewrite Hback, IH1, IH2. split; [done|lia].
Qed.

End HexFacts.

Example hexToArray_arrayToHex_witness :
  ZeroKnowledge.hexToArray (ZeroKnowledge.arrayToHex [171; 5; 0; 255]) = [171; 5; 0; 255] /\
  length (ZeroKnowledge.arrayToHex [171; 5; 0; 255]) = (2 * length [171; 5; 0; 255])%nat.
Proof.
  apply (hexToArray_arrayToHex [171; 5; 0; 255]).
  repeat constructor; unfold Text.isByte; lia.
Defined.

Section ProofCreationFacts.
Import Text Host ZeroKnowledge ZeroKnowledgeCreate.
Context {H : Subtle}.
Variable deriveBits : list Z -> list Z -> Z -> list Z.

Lemma truthy_hex array : array <> [] -> truthy (VString (hex array)) = true.
Proof.
  intros Hne. apply hex_nonempty in Hne. cbn. by destruct (hex array).
Qed.

(** Verification does not depend on the password: against a stored
    challenge that is not older than five minutes, the proof that
    [createPasswordProof] makes from any password, for any challenge string
    and any salt drawn, is accepted by [verifyPasswordProof], whatever the
    stored password hash. The digest of the platform is not empty. *)
Theorem created_password_proof_accepted zk cid cd
    password challengeHex random created storedHash now now' :
  (forall data, sha256 data <> []) ->
  random <> [] ->
  challenges zk !! cid = Some cd ->
  now - ZeroKnowledge.timestamp cd <= 300000 ->
  truthy (verifyPasswordProof zk
            (Some (asProof (createPasswordProof password challengeHex random created)))
            cid storedHash now now').1 = true.
Proof.
  intros Hsha Hrandom Hcd Hage.
  apply verifyPasswordProof_truthy_iff. eexists cd, _.
  split; [done|]. split; [done|]. split; [done|].
  unfold complete, asProof, createPasswordProof, arrayToHex, hashData.
  cbn [ZeroKnowledge.commitment ZeroKnowledge.response ZeroKnowledge.salt
       commitment response salt].
  by rewrite !truthy_hex.
Qed.

(** [createAgeProof] reports that the requirement is met exactly when the
    birthday on which the person turns [minAge] is not after today: the
    year of that birthday is before this year, or it is this year and the
    month and day of birth are not after today's. *)
Theorem created_age_proof_meets_requirement birthdate minAge today random now :
  createdMeetsRequirement (createAgeProof birthdate minAge today random now) = true <->
  fullYear birthdate + minAge < fullYear today \/
  (fullYear birthdate + minAge = fullYear today /\
   (month birthdate < month today \/
    (month birthdate = month today /\ dayOfMonth birthdate <= dayOfMonth today))).
Proof.
  unfold createAgeProof, actualAge. cbn [createdMeetsRequirement].
  rewrite Z.geb_leb, Z.leb_le.
  destruct (month today - month birthdate <? 0) eqn:E1; cbn [orb].
  { apply Z.ltb_lt in E1. lia. }
  apply Z.ltb_ge in E1.
  destruct (month today - month birthdate =? 0) eqn:E2; cbn [andb].
  2:{ apply Z.eqb_neq in E2. lia. }
  apply Z.eqb_eq in E2.
  destruct (dayOfMonth today <? dayOfMonth birthdate) eqn:E3.
  - apply Z.ltb_lt in E3. lia.
  - apply Z.ltb_ge in E3. lia.
Qed.

(** [verifyAgeProof] accepts every proof that [createAgeProof] made, for up
    to one hour after its creation, whether the proof says that the age
    requirement is met or that it is not. *)
Theorem created_age_proof_accepted birthdate minAge today random created now :
  (forall data, sha256 data <> []) ->
  now - created <= 3600000 ->
  verifyAgeProof (Some (asAgeProof (createAgeProof birthdate minAge today random created)))
                 now = true.
Proof.
  intros Hsha Hage. unfold verifyAgeProof, asAgeProof, createAgeProof, arrayToHex, hashData.
  cbn [ageCommitment rangeProof meetsRequirement ageTimestamp
       createdCommitment createdRangeProof createdMeetsRequirement createdTimestamp].
  rewrite !truthy_hex by done. cbn [negb orb olderThan].
  assert ((now - created >? 3600000) = false) as ->; [|done].
  rewrite Z.gtb_ltb. apply Z.ltb_ge. lia.
Qed.

(** The vault check compares derived bits and nothing else: a proof made
    by [createVaultAccessProof] from a password and a salt is accepted, for
    up to five minutes, against the commitment of a proof made earlier from
    a password and the same salt exactly when the two passwords derive the
    same bits. The derived bits and the digest are bytes and not empty. *)
Theorem created_vault_proof_accepted_iff password password0 salt
    random random0 created created0 now :
  (forall pw s n, deriveBits pw s n <> [] /\ Forall isByte (deriveBits pw s n)) ->
  (forall data, sha256 data <> []) ->
  now - created <= 300000 ->
  let stored :=
    VString (vaultProofCommitment
               (createVaultAccessProof deriveBits password0 salt random0 created0)) in
  verifyVaultAccessProof
    (Some (asVaultProof (createVaultAccessProof deriveBits password salt random created)))
    stored now = true
  <-> deriveBits (encode password) salt 100000
      = deriveBits (encode password0) salt 100000.
Proof.
  intros Hbits Hsha Hage stored. subst stored.
  unfold verifyVaultAccessProof, asVaultProof, createVaultAccessProof, arrayToHex, hashData.
  cbn [vaultCommitment vaultResponse vaultTimestamp vaultProofCommitment
       vaultProofResponse vaultProofTimestamp default].
  destruct (Hbits (encode password) salt 100000) as [Hne Hb].
  destruct (Hbits (encode password0) salt 100000) as [_ Hb0].
  pose proof (hex_nonempty _ Hne) as Hhex.
  unfold id.
  assert (Nat.eqb (length (hex (deriveBits (encode password) salt 100000))) 0 = false) as ->.
  { apply Nat.eqb_neq. by destruct (hex (deriveBits (encode password) salt 100000)). }
  rewrite truthy_hex by done. cbn [negb orb olderThan].
  assert ((now - created >? 300000) = false) as ->.
  { rewrite Z.gtb_ltb. apply Z.ltb_ge. lia. }
  rewrite bool_decide_eq_true. split.
  - intros Heq.
    rewrite <- (proj1 (hex_readsBack _ Hb)), <- (proj1 (hex_readsBack _ Hb0)).
    by rewrite Heq.
  - by intros ->.
Qed.

End ProofCreationFacts.

Example created_password_proof_accepted_witness :
  let zk := (ZeroKnowledge.generateChallenge ZeroKnowledge.new [171; 5] 1000).2 in
  ZeroKnowledge.truthy
    (ZeroKnowledge.verifyPasswordProof zk
       (Some (ZeroKnowledgeCreate.asProof
                (ZeroKnowledgeCreate.createPasswordProof (H := Host.reference)
                   (str "not the password") (str "ab05") [1; 2; 3] 1500)))
       (str "ab05") (ZeroKnowledge.VString (str "stored")) 2000 2000).1 = true.
Proof.
  intros zk.
  apply (created_password_proof_accepted (H := Host.reference) zk (str "ab05")
           (ZeroKnowledge.mkChallenge [171; 5] 1000 false)).
  - intros data. discriminate.
  - discriminate.
  - vm_compute. reflexivity.
  - simpl. lia.
Defined.

Example created_age_proof_accepted_witness :
  ZeroKnowledge.verifyAgeProof
    (Some (ZeroKnowledgeCreate.asAgeProof
             (ZeroKnowledgeCreate.createAgeProof (H := Host.reference)
                (ZeroKnowledgeCreate.mkDate 2015 5 20) 18
                (ZeroKnowledgeCreate.mkDate 2025 0 1) [1; 2; 3] 1000)))
    2000 = true.
Proof.
  apply (created_age_proof_accepted (H := Host.reference)).
  - intros data. discriminate.
  - lia.
Defined.

Example created_vault_proof_accepted_iff_witness :
  let deriveBits := fun pw s n : _ => [fold_left Z.add (pw ++ s) n mod 256] in
  let stored :=
    ZeroKnowledge.VString
      (ZeroKnowledgeCreate.vaultProofCommitment
         (ZeroKnowledgeCreate.createVaultAccessProof (H := Host.reference)
            deriveBits (str "master") [9; 9] [1; 2] 1000)) in
  ZeroKnowledge.verifyVaultAccessProof
    (Some (ZeroKnowledgeCreate.asVaultProof
             (ZeroKnowledgeCreate.createVaultAccessProof (H := Host.reference)
                deriveBits (str "master") [9; 9] [3; 4] 5000)))
    stored 6000 = true
  <-> deriveBits (Text.encode (str "master")) [9; 9] 100000
      = deriveBits (Text.encode (str "master")) [9; 9] 100000.
Proof.
  intros deriveBits.
  apply (created_vault_proof_accepted_iff (H := Host.reference) deriveBits
           (str "master") (str "master") [9; 9] [3; 4] [1; 2] 5000 1000 6000).
  - intros pw s n. split; [discriminate|]. subst deriveBits. cbn.
    constructor; [|constructor]. unfold Text.isByte. zdiv.
  - intros data. discriminate.
  - lia.
Defined.

Section ChallengeSweepFacts.
Import ZeroKnowledge.

(** [clearExpiredChallenges] removes the challenges older than five
    minutes and no other, leaves the proof records alone, and no later
    [verifyPasswordProof] call returns another value after a sweep than it
    would have returned without it. *)
Theorem clearExpiredChallenges_sweeps zk now :
  let zk' := clearExpiredChallenges zk now in
  (forall cid,
     challenges zk' !! cid =
       match challenges zk !! cid with
       | Some cd => if now - timestamp cd >? 300000 then None else Some cd
       | None => None
       end) /\
  proofs zk' = proofs zk /\
  (forall p cid h now' now'', now <= now' ->
     (verifyPasswordProof zk' p cid h now' now'').1
     = (verifyPasswordProof zk p cid h now' now'').1).
Proof.
  cbn zeta. unfold clearExpiredChallenges. cbn [challenges proofs].
  assert (Hlook : forall cid,
    filter (fun kv : list Z * challengeData =>
              negb (now - timestamp kv.2 >? 300000) = true) (challenges zk) !! cid =
      match challenges zk !! cid with
      | Some cd => if now - timestamp cd >? 300000 then None else Some cd
      | None => None
      end).
  { intros cid. rewrite map_lookup_filter.
    destruct (challenges zk !! cid) as [cd|]; [|done]. cbn.
    destruct (now - timestamp cd >? 300000); case_guard; cbn in *; done. }
  split; [exact Hlook|]. split; [done|].
  intros p cid h now' now'' Hnow.
  unfold verifyPasswordProof, verifyPasswordProof_try. cbn [challenges]. rewrite Hlook.
  destruct (challenges zk !! cid) as [cd|]; [|done].
  destruct (now - timestamp cd >? 300000) eqn:E.
  - rewrite Z.gtb_ltb in E. apply Z.ltb_lt in E.
    assert ((now' - timestamp cd >? 300000) = true) as ->; [|done].
    rewrite Z.gtb_ltb. apply Z.ltb_lt. lia.
  - destruct (now' - timestamp cd >? 300000); [done|].
    destruct p as [q|]; [|done]. cbn.
    by destruct (truthy (and_ (and_ (commitment q) (response q)) (salt q))).
Qed.

End ChallengeSweepFacts.

(** ** Encryption engine *)

Section E2EEFacts.
Import Text Base64 Host E2EECrypto.

(** The scalar values of any string of code units are scalar values: the
    conversion replaces what is not. *)
Lemma toUSV_scalar s : Forall codeUnit s -> Forall scalar (toUSV s).
Proof.
  assert (H : forall n s, (length s <= n)%nat -> Forall codeUnit s ->
                          Forall scalar (toUSV s)).
  { unfold codeUnit, scalar. induction n as [|n IH]; intros [|c r] Hlen Hcu.
    { constructor. }
    { cbn in Hlen. lia. }
    { constructor. }
    apply Forall_cons in Hcu as [Hc Hr]. cbn [toUSV]. cbn in Hlen.
    assert (Hrep : 0 <= 65533 <= 1114111 /\ ~ 55296 <= 65533 <= 57343) by lia.
    destruct (isHigh c) eqn:Eh.
    - destruct r as [|d r']; [constructor; [exact Hrep|constructor]|].
      apply Forall_cons in Hr as [Hd Hr']. destruct (isLow d) eqn:El.
      + constructor; [|apply IH; [cbn in Hlen; lia|done]].
        unfold isHigh, isLow in *. bool_hyps. lia.
      + constructor; [done|]. apply IH; [lia|by constructor].
    - destruct (isLow c) eqn:El.
      + constructor; [done|]. apply IH; [lia|done].
      + constructor; [|apply IH; [lia|done]].
        unfold isHigh, isLow in *. bool_hyps; lia. }
  by apply (H (length s)).
Qed.

Lemma encode_isByte s : Forall codeUnit s -> Forall isByte (encode s).
Proof.
  intros Hs. apply toUSV_scalar in Hs. unfold encode.
  induction Hs as [|cp cps Hcp _ IH]; [constructor|].
  cbn [flat_map]. apply Forall_app. split; [by apply utf8_bytes|done].
Qed.

Lemma wellFormed_codeUnit s : wellFormed s -> Forall codeUnit s.
Proof.
  unfold codeUnit. induction 1 as [|c s Hc _ _ _ IH|h l s Hh Hl _ IH].
  - constructor.
  - by constructor.
  - unfold isHigh, isLow in *. bool_hyps. repeat constructor; try lia. done.
Qed.

Context {H : Subtle} (A : Aead H).

(** A spread of an array takes place when the array is not longer than a
    call has arguments, and throws otherwise. *)
Lemma fromCharCode_fits array :
  Z.of_nat (length array) <= maxArguments -> fromCharCode array = Some array.
Proof.
  intros Hfit. unfold fromCharCode.
  by assert ((Z.of_nat (length array) <=? maxArguments) = true) as ->
    by (apply Z.leb_le; lia).
Qed.

Lemma fromCharCode_long array :
  maxArguments < Z.of_nat (length array) -> fromCharCode array = None.
Proof.
  intros Hlong. unfold fromCharCode.
  by assert ((Z.of_nat (length array) <=? maxArguments) = false) as ->
    by (apply Z.leb_gt; lia).
Qed.

(** What the two functions do in sequence when the ciphertext fits in one
    call: the envelope exists, and decrypting it gives the text decoding of
    the text encoding of the message. *)
Lemma decryptMessage_encryptMessage_decode P (K : CryptoKey) random now :
  Forall codeUnit P -> usable K = true ->
  length random = 12%nat -> Forall isByte random ->
  Z.of_nat (length (encode P)) + 16 <= maxArguments ->
  exists env, encryptMessage P K random now = inr env /\
              decryptMessage env K = inr (decode (encode P)).
Proof.
  intros HP HK Hlen Hiv Hfit.
  destruct (aes_roundtrip K random (encode P) HK Hlen Hiv (encode_isByte P HP))
    as (c & Henc & Hc & Hclen & Hdec).
  destruct (atob_btoa c Hc) as (c64 & Hc1 & Hc2).
  destruct (atob_btoa random Hiv) as (iv64 & Hi1 & Hi2).
  exists (mkEnvelope c64 iv64 now). split.
  - unfold encryptMessage. rewrite Henc.
    rewrite (fromCharCode_fits c), (fromCharCode_fits random) by lia.
    cbn [mbind option_bind]. by rewrite Hc1, Hi1.
  - unfold decryptMessage. cbn [ciphertext iv]. by rewrite Hc2, Hi2, Hdec.
Qed.

(** A ciphertext with more bytes than a call has arguments: the spread
    throws and [encryptMessage] throws its error. *)
Lemma encryptMessage_long P (K : CryptoKey) random now :
  Forall codeUnit P -> usable K = true ->
  length random = 12%nat -> Forall isByte random ->
  maxArguments < Z.of_nat (length (encode P)) + 16 ->
  encryptMessage P K random now = inl (Error (str "Failed to encrypt message")).
Proof.
  intros HP HK Hlen Hiv Hlong.
  destruct (aes_roundtrip K random (encode P) HK Hlen Hiv (encode_isByte P HP))
    as (c & Henc & Hc & Hclen & Hdec).
  unfold encryptMessage. rewrite Henc.
  rewrite (fromCharCode_long c) by lia. done.
Qed.

(** C1, amended. For every plaintext string that is well-formed UTF-16 (no
    surrogate outside a pair) and does not start with U+FEFF, every usable
    AES-GCM key, every 12-byte IV drawn and every clock reading: when the
    ciphertext, which is the UTF-8 bytes of the plaintext and the 16 bytes
    of the tag, has no more bytes than the engine takes arguments in one
    call, [encryptMessage] returns an envelope and [decryptMessage] on that
    envelope with the same key returns the plaintext; when it has more,
    [encryptMessage] throws "Failed to encrypt message". *)
Theorem decryptMessage_encryptMessage P (K : CryptoKey) random now :
  wellFormed P -> head P <> Some 65279 ->
  usable K = true -> length random = 12%nat -> Forall isByte random ->
  (Z.of_nat (length (encode P)) + 16 <= maxArguments ->
     exists env, encryptMessage P K random now = inr env /\
                 decryptMessage env K = inr P) /\
  (maxArguments < Z.of_nat (length (encode P)) + 16 ->
     encryptMessage P K random now = inl (Error (str "Failed to encrypt message"))).
Proof.
  intros HP Hbom HK Hlen Hiv. split.
  - intros Hfit.
    destruct (decryptMessage_encryptMessage_decode P K random now) as (env & He & Hd);
      try done; [by apply wellFormed_codeUnit|].
    exists env. split; [done|]. by rewrite Hd, decode_encode.
  - intros Hlong. apply encryptMessage_long; try done. by apply wellFormed_codeUnit.
Qed.

End E2EEFacts.

Section E2EEExamples.
Import Text Base64 Host E2EECrypto.

(** The reference instance satisfies the law of the cipher. *)
Lemma reference_aead : Aead reference.
Proof.
  constructor. intros k iv data _ _ _ Hd. eexists. split; [reflexivity|].
  split; [|split].
  - apply Forall_app. split.
    + apply Forall_map. eapply Forall_impl; [exact Hd|].
      intros b _. unfold isByte. cbn. zdiv.
    + repeat constructor; unfold isByte; lia.
  - by rewrite length_app, length_map.
  - cbn [aesGcmDecrypt reference]. rewrite length_app, length_map.
    change (length (repeat 0 16)) with 16%nat.
    assert (Nat.ltb (length data + 16) 16 = false) as -> by (apply Nat.ltb_ge; lia).
    replace (length data + 16 - 16)%nat with (length (List.map (fun b => (b + k) mod 256) data))
      by (rewrite length_map; lia).
    rewrite take_app_length. f_equal.
    rewrite List.map_map. rewrite <- (List.map_id data) at 2.
    apply List.map_ext_in. intros b Hb. rewrite Forall_forall in Hd.
    apply list_elem_of_In in Hb. apply Hd in Hb. unfold isByte in Hb.
    rewrite Zminus_mod_idemp_l. replace (b + k - k) with b by lia.
    apply Z.mod_small. lia.
Qed.

(** The claim C1 fails as stated: a string that is a high surrogate alone
    is encrypted, and decrypting the envelope with the same key returns the
    replacement character U+FFFD instead. *)
Lemma decryptMessage_encryptMessage_lone_surrogate :
  let P := [55357] in
  let K : @CryptoKey reference := 7 in
  exists env,
    encryptMessage P K [1; 2; 3; 4; 5; 6; 7; 8; 9; 10; 11; 12] 1000 = inr env /\
    decryptMessage env K = inr [65533] /\
    decryptMessage env K <> inr P.
Proof. eexists. split; [vm_compute; reflexivity|]. split; [vm_compute; reflexivity|]. discriminate. Qed.

(** A string that starts with U+FEFF loses it: the decoder drops the byte
    order mark. *)
Lemma decryptMessage_encryptMessage_bom :
  let P := 65279 :: str "hi" in
  let K : @CryptoKey reference := 7 in
  exists env,
    encryptMessage P K [1; 2; 3; 4; 5; 6; 7; 8; 9; 10; 11; 12] 1000 = inr env /\
    decryptMessage env K = inr (str "hi").
Proof. eexists. split; vm_compute; reflexivity. Qed.

Example decryptMessage_encryptMessage_witness :
  let P := str "senha: " ++ [233; 8364; 55357; 56832] in
  let K : @CryptoKey reference := 7 in
  exists env,
    encryptMessage P K [1; 2; 3; 4; 5; 6; 7; 8; 9; 10; 11; 12] 1000 = inr env /\
    decryptMessage env K = inr P.
Proof.
  intros P K.
  destruct (decryptMessage_encryptMessage reference_aead P K
              [1; 2; 3; 4; 5; 6; 7; 8; 9; 10; 11; 12] 1000) as [Hfits _].
  - vm_compute. repeat first [ apply wf_nil | apply wf_pair; [reflexivity..|]
                             | apply wf_unit; [lia|reflexivity..|] ].
  - discriminate.
  - reflexivity.
  - reflexivity.
  - repeat constructor; unfold isByte; lia.
  - apply Hfits. vm_compute. discriminate.
Defined.

End E2EEExamples.

(** ** Worker pool dispatcher *)

Section WorkerPoolFacts.
Import Host CryptoWorker CryptoWorkerManager.
Context {H : Subtle}.

Implicit Types (w : CryptoWorkerManager.t).

(** Creating workers touches the worker list and the heap only. *)
Lemma spawn_frame n : forall i available w,
  pendingOperations (spawn n i available w) = pendingOperations w /\
  promises (spawn n i available w) = promises w /\
  timers (spawn n i available w) = timers w /\
  outbox (spawn n i available w) = outbox w /\
  operationId (spawn n i available w) = operationId w.
Proof.
  induction n as [|n IH]; intros i available w; [done|]. cbn [spawn].
  destruct (Nat.ltb i available); [|done].
  destruct (IH (S i) available
    (mk (workers w ++ [nextRef w]) (workerCount w) (nextWorkerId w)
        (pendingOperations w) (operationId w) (initialized w)
        (<[nextRef w := mkWorker false i false]> (heap w))
        (S (nextRef w)) (promises w) (timers w) (nextTimer w) (outbox w)))
    as (-> & -> & -> & -> & ->). done.
Qed.

Lemma initialize_frame w available :
  pendingOperations (initialize w available) = pendingOperations w /\
  promises (initialize w available) = promises w /\
  timers (initialize w available) = timers w /\
  outbox (initialize w available) = outbox w.
Proof.
  unfold initialize. destruct (initialized w); [done|]. cbn.
  destruct (spawn_frame (workerCount w) 0 available w) as (-> & -> & -> & -> & _).
  done.
Qed.

(** The two names the inline path knows are different strings. *)
Lemma typeIs_encryptData_not_deriveKey type :
  type = str "encryptData" -> typeIs type "deriveKey" = false.
Proof. intros ->. by vm_compute. Qed.

(** The heap after [terminate]: the listed workers are terminated and the
    other objects are as they were. *)
Lemma terminate_heap (refs : list nat) (heap : gmap nat workerObj) ref :
  foldr (fun r h => alter setTerminated r h) heap refs !! ref =
    if bool_decide (ref ∈ refs) then setTerminated <$> heap !! ref
    else heap !! ref.
Proof.
  induction refs as [|r refs IH]; [done|]. cbn [foldr].
  destruct (decide (r = ref)) as [->|Hne].
  - rewrite lookup_alter_eq, IH.
    rewrite (bool_decide_eq_true_2 (ref ∈ ref :: refs)) by left.
    destruct (bool_decide (ref ∈ refs)); [|done].
    by destruct (heap !! ref).
  - rewrite lookup_alter_ne, IH by done.
    destruct (decide (ref ∈ refs)) as [Hin|Hnin].
    + rewrite !bool_decide_eq_true_2; [done|by right|done].
    + rewrite !bool_decide_eq_false_2; [done| |done].
      intros [?|?]%elem_of_cons; congruence.
Qed.

(** A call and its resumption with nothing in between. *)
Lemma execute_unfold w available type data timeout :
  execute w available type data timeout
  = executeBody (if initialized w then w else initialize w available)
                type data timeout.
Proof.
  unfold execute, executeCall. destruct (initialized w); [|done].
  by destruct (executeBody w type data timeout).
Qed.

(** A call of [execute] on a pool that is not initialized is suspended
    after [initialize]; if [terminate] is called before it is resumed, the
    resumption finds no worker and runs the operation inline: nothing is
    dispatched and nothing is pending. *)
Lemma terminate_before_resumption w available type data timeout :
  initialized w = false ->
  let w1 := initialize w available in
  executeCall w available type data timeout = (Suspended type data timeout, w1) /\
  executeResume (terminate w1) (Suspended type data timeout)
    = Some (Inline (executeInMainThread type data), terminate w1).
Proof. intros Hw. cbn zeta. unfold executeCall. by rewrite Hw. Qed.

(** The claim C5 fails as stated: on a pool that is initialized, an
    operation is dispatched to a worker within the call of [execute], and
    [terminate] is called before any reply; after [terminate] the promise
    of the operation is still pending, and its entry and its timer are
    still there. *)
Lemma terminate_leaves_operation_pending :
  let data := mkPayload (H := reference) None None None None None None None
                        None None None (Some (str "abc")) in
  let w0 := initialize (new 2) 2 in
  let '(c, w1) := executeCall w0 2 (str "hashData") data 30000 in
  let w2 := terminate w1 in
  initialized w0 = true /\
  c = Returned (Dispatched 0) /\
  promises w2 !! 0%nat = Some Pending /\
  pendingOperations w2 !! 0%nat = Some (mkPendingOp 1 0) /\
  timers w2 !! 1%nat = Some (mkTimer 0 0 30000) /\
  workers w2 = [].
Proof. vm_compute. repeat split. Qed.

(** C5, amended. [terminate] terminates every worker of the pool, empties
    the worker list and marks the pool as not initialized. It leaves the
    pending operations, their promises and their timers as they were: an
    operation in flight stays pending, and when its timer fires it is
    rejected with the error "Operation timeout" and its entry is removed. *)
Theorem terminate_keeps_pending_operations w :
  let w' := terminate w in
  workers w' = [] /\ initialized w' = false /\
  (forall ref o, ref ∈ workers w -> heap w !! ref = Some o ->
     heap w' !! ref = Some (setTerminated o)) /\
  pendingOperations w' = pendingOperations w /\
  promises w' = promises w /\
  timers w' = timers w /\
  (forall handle tm,
     timers w !! handle = Some tm ->
     promises w !! timerOperation tm = Some Pending ->
     promises (timeoutFires w' handle) !! timerOperation tm
       = Some (Rejected (Error (str "Operation timeout"))) /\
     pendingOperations (timeoutFires w' handle) !! timerOperation tm = None).
Proof.
  cbn zeta. unfold terminate. cbn [workers initialized heap pendingOperations promises timers].
  split; [done|]. split; [done|]. split; [|split; [done|split; [done|split; [done|]]]].
  - intros ref o Hin Ho. rewrite terminate_heap, bool_decide_eq_true_2 by done.
    by rewrite Ho.
  - intros handle tm Htm Hp. unfold timeoutFires. cbn [timers]. rewrite Htm.
    cbn [promises pendingOperations]. split.
    + unfold settle. rewrite Hp. by rewrite lookup_insert_eq.
    + by rewrite lookup_delete_eq.
Qed.

(** The claim C6 fails as stated: with no worker available the request to
    hash a message is run inline and rejected as an unknown operation,
    while the worker resolves the same request with the digest in
    hexadecimal. *)
Lemma inline_hash_differs_from_worker :
  let type := str "hashData" in
  let data := mkPayload None None None None None None None None None None
                        (Some (str "abc")) in
  (execute (H := reference) (new 2) 0 type data 30000).1
    = Inline (Rejected (Error (str "Unknown operation: hashData"))) /\
  workerPath (H := reference) type data [] 0 = Fulfilled (RText (str "26")) /\
  executeInMainThread (H := reference) type data
    <> workerPath (H := reference) type data [] 0.
Proof. vm_compute. repeat split. discriminate. Qed.

(** C6, amended. When the pool, initialized if it was not, has no worker
    or no idle worker, [execute] runs the operation inline: it returns the
    promise of [executeInMainThread] and queues nothing (no pending entry,
    no promise, no timer, no message to a worker). The inline path does not
    do what a worker does: it rejects "encryptData" as not implemented, and
    every type other than "deriveKey" and "encryptData" as an unknown
    operation. *)
Theorem execute_inline_when_no_idle_worker w available type data timeout :
  let w1 := if initialized w then w else initialize w available in
  workers w1 = [] \/ getAvailableWorker w1 = None ->
  execute w available type data timeout
    = (Inline (executeInMainThread type data), w1) /\
  pendingOperations w1 = pendingOperations w /\
  promises w1 = promises w /\ timers w1 = timers w /\ outbox w1 = outbox w /\
  (type = str "encryptData" ->
     executeInMainThread type data
     = Rejected (Error (str "Main thread fallback not implemented for this operation"))) /\
  (type <> str "deriveKey" -> type <> str "encryptData" ->
     executeInMainThread type data
     = Rejected (Error (str "Unknown operation: " ++ type))).
Proof.
  intros w1 Hidle. split; [|split; [|split; [|split; [|split]]]].
  - rewrite execute_unfold. fold w1. unfold executeBody.
    destruct Hidle as [-> | ->]; [done|].
    by destruct (Nat.eqb (length (workers w1)) 0).
  - subst w1. destruct (initialized w); [done|]. apply initialize_frame.
  - subst w1. destruct (initialized w); [done|]. apply initialize_frame.
  - subst w1. destruct (initialized w); [done|]. apply initialize_frame.
  - subst w1. destruct (initialized w); [done|]. apply initialize_frame.
  - split.
    + intros Ht. unfold executeInMainThread.
      rewrite (typeIs_encryptData_not_deriveKey type Ht).
      unfold typeIs. by rewrite bool_decide_eq_true_2.
    + intros Hd He. unfold executeInMainThread, typeIs.
      by rewrite !bool_decide_eq_false_2.
Qed.

End WorkerPoolFacts.

Example execute_inline_when_no_idle_worker_witness :
  let w := CryptoWorkerManager.new (H := Host.reference) 2 in
  let type := str "hashData" in
  let data := CryptoWorker.mkPayload (H := Host.reference)
                None None None None None None None None None None (Some (str "abc")) in
  let w1 := if CryptoWorkerManager.initialized w then w
            else CryptoWorkerManager.initialize w 0 in
  CryptoWorkerManager.execute w 0 type data 30000
    = (CryptoWorkerManager.Inline (CryptoWorkerManager.executeInMainThread type data), w1) /\
  CryptoWorkerManager.pendingOperations w1 = CryptoWorkerManager.pendingOperations w /\
  CryptoWorkerManager.promises w1 = CryptoWorkerManager.promises w /\
  CryptoWorkerManager.timers w1 = CryptoWorkerManager.timers w /\
  CryptoWorkerManager.outbox w1 = CryptoWorkerManager.outbox w /\
  (type = str "encryptData" ->
     CryptoWorkerManager.executeInMainThread type data
     = CryptoWorkerManager.Rejected (CryptoWorkerManager.Error
         (str "Main thread fallback not implemented for this operation"))) /\
  (type <> str "deriveKey" -> type <> str "encryptData" ->
     CryptoWorkerManager.executeInMainThread type data
     = CryptoWorkerManager.Rejected (CryptoWorkerManager.Error
         (str "Unknown operation: " ++ type))).
Proof.
  apply (execute_inline_when_no_idle_worker (H := Host.reference)
           (CryptoWorkerManager.new 2) 0 (str "hashData")).
  left. reflexivity.
Defined.

(** ** Worker script and worker pool: further properties *)

Section WorkerScriptFacts.
Import Text Base64 Host CryptoWorker.
Context {H : Subtle} (A : Aead H).

(** The worker's [decryptData] gives back the plaintext of the worker's
    [encryptData]: for a key in JWK form that the platform imports as a
    usable AES-GCM key, a plaintext that is well-formed UTF-16 and does not
    start with U+FEFF, and 12 bytes drawn for the IV. When the ciphertext,
    the UTF-8 bytes of the plaintext and the 16 bytes of the tag, has no
    more bytes than a call takes arguments, encryption resolves with a
    ciphertext and an IV, and decryption of these with the same key
    resolves with the plaintext; when it has more, encryption fails with
    the message of the exception of the spread. *)
Theorem worker_decryptData_encryptData text jwk k random now :
  importAesJwk jwk = Some k -> usable k = true ->
  wellFormed text -> head text <> Some 65279 ->
  length random = 12%nat -> Forall isByte random ->
  let request := mkPayload None None None (Some text) (Some jwk)
                           None None None None None None in
  (Z.of_nat (length (encode text)) + 16 <= maxArguments ->
     exists c i,
       encryptData request random now = inr (REncrypted c i now) /\
       decryptData (mkPayload None None None None (Some jwk) (Some c) (Some i)
                              None None None None)
         = inr (RText text)) /\
  (maxArguments < Z.of_nat (length (encode text)) + 16 ->
     encryptData request random now = inl (failure SpreadRejected)).
Proof.
  intros Hjwk Hk Hwf Hbom Hlen Hiv request.
  destruct (aes_roundtrip k random (encode text) Hk Hlen Hiv
              (encode_isByte text (wellFormed_codeUnit text Hwf)))
    as (c & Henc & Hc & Hclen & Hdec).
  assert (Hstart : encryptData request random now
                   = (encryptedChars ← orFail SpreadRejected (fromCharCode c);
                      c64 ← orFail BtoaRejected (btoa encryptedChars);
                      ivChars ← orFail SpreadRejected (fromCharCode random);
                      i ← orFail BtoaRejected (btoa ivChars);
                      inr (REncrypted c64 i now))).
  { unfold encryptData, encodeText, request.
    cbn [plaintext keyJwk default mbind option_bind]. rewrite Hjwk.
    cbn. unfold id. change (flat_map utf8 (toUSV text)) with (encode text).
    by rewrite Henc. }
  split.
  - intros Hfit.
    destruct (atob_btoa c Hc) as (c64 & Hc1 & Hc2).
    destruct (atob_btoa random Hiv) as (iv64 & Hi1 & Hi2).
    exists c64, iv64. split.
    + rewrite Hstart.
      rewrite (fromCharCode_fits c), (fromCharCode_fits random) by lia.
      cbn. rewrite Hc1. cbn. by rewrite Hi1.
    + unfold decryptData, atobText.
      cbn [ciphertext iv keyJwk default]. unfold id. rewrite Hc2. cbn. rewrite Hi2.
      cbn. rewrite Hjwk. cbn. rewrite Hdec. cbn. by rewrite decode_encode.
  - intros Hlong. rewrite Hstart, (fromCharCode_long c) by lia. done.
Qed.

End WorkerScriptFacts.

Section WorkerDeriveFacts.
Import Text Base64 Host CryptoWorker.
Context {H : Subtle}.

(** The salt string that the worker's [deriveKeyFromPassword] returns
    stands for the salt it used: for an iteration count that PBKDF2 takes,
    from 1 to 2^32 - 1, and a salt with no more bytes than a call takes
    arguments, the call with the salt bytes resolves with a key and the
    salt in base64, and the call with that string as salt resolves with the
    same key and the same string. *)
Theorem worker_deriveKey_salt_roundtrip pw bytes n :
  Forall isByte bytes ->
  1 <= n <= 4294967295 ->
  Z.of_nat (length bytes) <= maxArguments ->
  exists salt64,
    deriveKeyFromPassword
      (mkPayload (Some pw) (Some (SaltBytes bytes)) (Some n)
                 None None None None None None None None)
      = inr (RDerivedKey (exportJwk (pbkdf2 (encode pw) bytes n)) salt64) /\
    deriveKeyFromPassword
      (mkPayload (Some pw) (Some (SaltString salt64)) (Some n)
                 None None None None None None None None)
      = inr (RDerivedKey (exportJwk (pbkdf2 (encode pw) bytes n)) salt64).
Proof.
  intros Hb Hn Hfit. destruct (atob_btoa bytes Hb) as (s64 & H1 & H2).
  assert (Hkey : deriveAesKey (encode pw) bytes n = inr (pbkdf2 (encode pw) bytes n)).
  { unfold deriveAesKey.
    assert ((n <? 0) = false) as -> by (apply Z.ltb_ge; lia).
    assert ((4294967295 <? n) = false) as -> by (apply Z.ltb_ge; lia).
    assert ((n =? 0) = false) as -> by (apply Z.eqb_neq; lia). done. }
  exists s64. unfold deriveKeyFromPassword, encodeText.
  cbn [password salt iterations default]. unfold id. split.
  - cbn [orFail mbind throw_bind]. rewrite Hkey. cbn [mbind throw_bind].
    rewrite (fromCharCode_fits bytes) by done. cbn [orFail mbind throw_bind].
    by rewrite H1.
  - rewrite H2. cbn [orFail mbind throw_bind]. rewrite Hkey. cbn [mbind throw_bind].
    rewrite (fromCharCode_fits bytes) by done. cbn [orFail mbind throw_bind].
    by rewrite H1.
Qed.

(** An iteration count that PBKDF2 does not take: the derivation fails,
    whatever the salt. *)
Lemma worker_deriveKey_rejects_iterations pw bytes n :
  n <= 0 \/ 4294967295 < n ->
  exists message,
    deriveKeyFromPassword
      (mkPayload (Some pw) (Some (SaltBytes bytes)) (Some n)
                 None None None None None None None None)
    = inl message.
Proof.
  intros Hn. unfold deriveKeyFromPassword, deriveAesKey.
  cbn [password salt iterations default orFail mbind throw_bind]. unfold id.
  destruct ((n <? 0) || (4294967295 <? n)) eqn:E; [by eexists|].
  apply orb_false_iff in E as [E1 E2].
  apply Z.ltb_ge in E1. apply Z.ltb_ge in E2.
  assert ((n =? 0) = true) as -> by (apply Z.eqb_eq; lia). by eexists.
Qed.

End WorkerDeriveFacts.

Example worker_decryptData_encryptData_witness :
  exists c i,
    CryptoWorker.encryptData (H := Host.reference)
      (CryptoWorker.mkPayload (H := Host.reference) None None None (Some (str "segredo")) (Some 7)
                              None None None None None None)
      [1; 2; 3; 4; 5; 6; 7; 8; 9; 10; 11; 12] 1000
      = inr (CryptoWorker.REncrypted c i 1000) /\
    CryptoWorker.decryptData (H := Host.reference)
      (CryptoWorker.mkPayload (H := Host.reference) None None None None (Some 7) (Some c) (Some i)
                              None None None None)
      = inr (CryptoWorker.RText (str "segredo")).
Proof.
  destruct (worker_decryptData_encryptData reference_aead (str "segredo") 7 7
              [1; 2; 3; 4; 5; 6; 7; 8; 9; 10; 11; 12] 1000) as [Hfits _].
  - reflexivity.
  - reflexivity.
  - vm_compute. repeat first [ apply Text.wf_nil
                             | apply Text.wf_unit; [lia|reflexivity..|] ].
  - discriminate.
  - reflexivity.
  - repeat constructor; unfold Text.isByte; lia.
  - apply Hfits. vm_compute. discriminate.
Defined.

Example worker_deriveKey_salt_roundtrip_witness :
  exists salt64,
    CryptoWorker.deriveKeyFromPassword (H := Host.reference)
      (CryptoWorker.mkPayload (Some (str "senha")) (Some (SaltBytes [1; 2; 3; 250]))
                              (Some 100000) None None None None None None None None)
      = inr (CryptoWorker.RDerivedKey
               (Host.exportJwk (Host.pbkdf2 (Text.encode (str "senha")) [1; 2; 3; 250] 100000))
               salt64) /\
    CryptoWorker.deriveKeyFromPassword (H := Host.reference)
      (CryptoWorker.mkPayload (Some (str "senha")) (Some (SaltString salt64))
                              (Some 100000) None None None None None None None None)
      = inr (CryptoWorker.RDerivedKey
               (Host.exportJwk (Host.pbkdf2 (Text.encode (str "senha")) [1; 2; 3; 250] 100000))
               salt64).
Proof.
  apply (worker_deriveKey_salt_roundtrip (H := Host.reference)).
  - repeat constructor; unfold Text.isByte; lia.
  - lia.
  - vm_compute. discriminate.
Defined.

Section WorkerPoolMoreFacts.
Import Host CryptoWorker CryptoWorkerManager.
Context {H : Subtle}.

Implicit Types (w : CryptoWorkerManager.t).

(** The loop of [initialize]: it appends a worker for each index from [i]
    that is below both the pool size and the number of workers the platform
    can create, each idle and numbered by its index. *)
Lemma spawn_spec n : forall i available w,
  let m := Nat.min n (available - i) in
  workers (spawn n i available w) = workers w ++ seq (nextRef w) m /\
  (forall j, (j < m)%nat ->
     heap (spawn n i available w) !! (nextRef w + j)%nat
       = Some (mkWorker false (i + j) false)) /\
  (forall r, (r < nextRef w)%nat ->
     heap (spawn n i available w) !! r = heap w !! r) /\
  initialized (spawn n i available w) = initialized w.
Proof.
  induction n as [|n IH]; intros i available w; cbn zeta.
  { cbn. rewrite app_nil_r. repeat split; try done. intros j Hj. lia. }
  cbn [spawn]. destruct (Nat.ltb i available) eqn:E.
  - apply Nat.ltb_lt in E.
    replace (available - i)%nat with (S (available - S i)) by lia.
    cbn [Nat.min seq].
    set (w1 := mk _ _ _ _ _ _ _ _ _ _ _ _).
    destruct (IH (S i) available w1) as (Hw & Hh & Hold & Hinit).
    cbn zeta in *. subst w1. cbn [workers nextRef heap initialized] in *.
    rewrite Hw, <- app_assoc. split; [done|]. split; [|split; [|done]].
    + intros [|j] Hj.
      * rewrite Nat.add_0_r, Hold by lia. rewrite lookup_insert_eq.
        by rewrite Nat.add_0_r.
      * replace (nextRef w + S j)%nat with (S (nextRef w) + j)%nat by lia.
        rewrite Hh by lia. do 2 f_equal. lia.
    + intros r Hr. rewrite Hold by lia. rewrite lookup_insert_ne by lia. done.
  - apply Nat.ltb_ge in E. replace (available - i)%nat with 0%nat by lia.
    rewrite Nat.min_0_r. cbn. rewrite app_nil_r. repeat split; try done.
    intros j Hj. lia.
Qed.

(** [initialize] on a new manager creates as many workers as the pool
    size and the platform allow, numbered from 0 and all idle, and the
    pool counts as initialized exactly when there is at least one; nothing
    is pending. *)
Theorem initialize_creates_idle_workers n available :
  let w := initialize (new (H := H) n) available in
  let m := Nat.min n available in
  workers w = seq 0 m /\
  initialized w = Nat.ltb 0 m /\
  (forall j, (j < m)%nat -> heap w !! j = Some (mkWorker false j false)) /\
  pendingOperations w = ∅ /\ promises w = ∅ /\ timers w = ∅.
Proof.
  cbn zeta. unfold initialize. cbn [initialized new workerCount].
  destruct (spawn_spec n 0 available (new n)) as (Hw & Hh & _ & _).
  destruct (spawn_frame n 0 available (new n)) as (Hp & Hpr & Ht & _ & _).
  cbn zeta in *. rewrite Nat.sub_0_r in *.
  cbn [workers heap pendingOperations promises timers new nextRef] in *.
  cbn [app] in Hw. rewrite Hw, Hp, Hpr, Ht, length_seq.
  repeat split; done.
Qed.

Lemma settle_ne q id (m : gmap nat promiseState) op :
  id <> op -> settle q id m !! op = m !! op.
Proof.
  intros Hne. unfold settle. destruct (m !! id) as [[| |]|]; try done.
  by rewrite lookup_insert_ne.
Qed.

Lemma settle_is_Some q id (m : gmap nat promiseState) op p :
  settle q id m !! op = Some p -> is_Some (m !! op).
Proof.
  unfold settle. destruct (m !! id) as [[| |]|] eqn:E; try by eauto.
  destruct (decide (id = op)) as [<-|Hne]; [by rewrite E|].
  rewrite lookup_insert_ne by done. eauto.
Qed.

Lemma spawn_nextTimer n : forall i available w,
  nextTimer (spawn n i available w) = nextTimer w.
Proof.
  induction n as [|n IH]; intros i available w; [done|]. cbn [spawn].
  destruct (Nat.ltb i available); [|done]. by rewrite IH.
Qed.

Lemma new_booked n : booked (new n).
Proof. repeat split; cbn; try done; intros ? ?; by rewrite lookup_empty. Qed.

Lemma initialize_booked w available : booked w -> booked (initialize w available).
Proof.
  intros Hw. unfold initialize. destruct (initialized w); [done|].
  destruct (spawn_frame (workerCount w) 0 available w) as (Hp & Hpr & _ & _ & Hop).
  unfold booked. cbn [pendingOperations promises operationId nextTimer].
  by rewrite Hp, Hpr, Hop, spawn_nextTimer.
Qed.

Lemma executeBody_booked w type data timeout :
  booked w -> booked (executeBody w type data timeout).2.
Proof.
  intros (Hpend & Hprom & Htimer). unfold executeBody.
  destruct (Nat.eqb (length (workers w)) 0); [done|].
  destruct (getAvailableWorker w) as [[ref o]|]; [|done].
  unfold booked. cbn [snd pendingOperations promises operationId nextTimer].
  split; [|split; [|done]].
  - intros op pending Hop.
    apply lookup_insert_Some in Hop as [[<- <-]|[Hne Hop]].
    + by rewrite lookup_insert_eq.
    + rewrite lookup_insert_ne by done. by apply Hpend.
  - intros op p Hop.
    apply lookup_insert_Some in Hop as [[<- _]|[_ Hop]]; [lia|].
    apply Hprom in Hop. lia.
Qed.

Lemma handleWorkerMessage_booked w data :
  booked w -> booked (handleWorkerMessage w data).
Proof.
  intros (Hpend & Hprom & Htimer). unfold handleWorkerMessage.
  destruct data as [|id out]; [done|].
  destruct (pendingOperations w !! id) as [pending|]; [|done].
  unfold booked. cbn [pendingOperations promises operationId nextTimer].
  split; [|split; [|done]].
  - intros op po Hop. apply lookup_delete_Some in Hop as [Hne Hop].
    destruct out; rewrite settle_ne by done; by apply Hpend.
  - intros op p Hop.
    destruct out; apply settle_is_Some in Hop as [p' Hop]; by apply Hprom in Hop.
Qed.

Lemma timeoutFires_booked w handle : booked w -> booked (timeoutFires w handle).
Proof.
  intros (Hpend & Hprom & Htimer). unfold timeoutFires.
  destruct (timers w !! handle) as [tm|]; [|done].
  unfold booked. cbn [pendingOperations promises operationId nextTimer].
  split; [|split; [|done]].
  - intros op po Hop. apply lookup_delete_Some in Hop as [Hne Hop].
    rewrite settle_ne by done. by apply Hpend.
  - intros op p Hop. apply settle_is_Some in Hop as [p' Hop]. by apply Hprom in Hop.
Qed.

Lemma step_booked w e : booked w -> booked (step w e).
Proof.
  intros Hw. destruct e as [available|available type data timeout|type data timeout
                            |data|handle|]; cbn [step].
  - by apply initialize_booked.
  - unfold executeCall. destruct (initialized w).
    + pose proof (executeBody_booked w type data timeout Hw) as Hb.
      by destruct (executeBody w type data timeout).
    + by apply initialize_booked.
  - by apply executeBody_booked.
  - by apply handleWorkerMessage_booked.
  - by apply timeoutFires_booked.
  - done.
Qed.

Lemma steps_booked w events : booked w -> booked (steps w events).
Proof.
  unfold steps. revert w. induction events as [|e events IH]; intros w Hw; [done|].
  cbn [fold_left]. by apply IH, step_booked.
Qed.

(** In every run of a manager, as long as an operation has its pending
    entry, that is from its dispatch until its reply or its timeout is
    handled, the reply to it settles its promise: with the result the reply
    carries, or with an error holding the message the reply carries. The
    entry is then removed and the timeout is cancelled. *)
Theorem dispatched_settles n events op pending outcome :
  let w := steps (new (H := H) n) events in
  pendingOperations w !! op = Some pending ->
  let w' := handleWorkerMessage w (Reply op outcome) in
  promises w' !! op
    = Some (match outcome with
            | inr result => Fulfilled result
            | inl error => Rejected (Error error)
            end) /\
  pendingOperations w' !! op = None /\
  timers w' !! timeoutId pending = None.
Proof.
  cbn zeta. intros Hop.
  destruct (steps_booked _ events (new_booked n)) as (Hpend & _ & _).
  destruct (Hpend op pending Hop) as [Hp Ht].
  unfold handleWorkerMessage. rewrite Hop.
  cbn [promises pendingOperations timers].
  assert (Nat.eqb (timeoutId pending) 0 = false) as -> by by apply Nat.eqb_neq.
  rewrite !lookup_delete_eq. split; [|done].
  destruct outcome; unfold settle; rewrite Hp; by rewrite lookup_insert_eq.
Qed.

(** A reply that comes after the timeout of its operation is dropped: the
    timeout has removed the pending entry, so the message changes nothing,
    and the promise that was pending stays rejected with "Operation
    timeout". *)
Theorem late_reply_is_dropped w handle tm outcome :
  timers w !! handle = Some tm ->
  promises w !! timerOperation tm = Some Pending ->
  handleWorkerMessage (timeoutFires w handle) (Reply (timerOperation tm) outcome)
    = timeoutFires w handle /\
  promises (timeoutFires w handle) !! timerOperation tm
    = Some (Rejected (Error (str "Operation timeout"))).
Proof.
  intros Htm Hp. unfold timeoutFires. rewrite Htm. split.
  - unfold handleWorkerMessage. cbn [pendingOperations].
    by rewrite lookup_delete_eq.
  - cbn [promises]. unfold settle. rewrite Hp. by rewrite lookup_insert_eq.
Qed.

End WorkerPoolMoreFacts.

Example dispatched_settles_witness :
  let data := CryptoWorker.mkPayload (H := Host.reference)
                None None None None None None None None None None (Some (str "abc")) in
  let w := CryptoWorkerManager.steps (CryptoWorkerManager.new 2)
             [CryptoWorkerManager.Call 2 (str "hashData") data 30000;
              CryptoWorkerManager.Resume (str "hashData") data 30000;
              CryptoWorkerManager.Resume (str "hashData") data 30000;
              CryptoWorkerManager.TimerFires 2] in
  let w' := CryptoWorkerManager.handleWorkerMessage w
              (CryptoWorker.Reply 0 (inl (str "boom"))) in
  CryptoWorkerManager.promises w' !! 0%nat
    = Some (CryptoWorkerManager.Rejected (CryptoWorkerManager.Error (str "boom"))) /\
  CryptoWorkerManager.pendingOperations w' !! 0%nat = None /\
  CryptoWorkerManager.timers w' !! 1%nat = None.
Proof.
  intros data.
  apply (dispatched_settles (H := Host.reference) 2
           [CryptoWorkerManager.Call 2 (str "hashData") data 30000;
            CryptoWorkerManager.Resume (str "hashData") data 30000;
            CryptoWorkerManager.Resume (str "hashData") data 30000;
            CryptoWorkerManager.TimerFires 2]
           0%nat (CryptoWorkerManager.mkPendingOp 1 0) (inl (str "boom"))).
  vm_compute. reflexivity.
Defined.

Example late_reply_is_dropped_witness :
  let data := CryptoWorker.mkPayload (H := Host.reference)
                None None None None None None None None None None (Some (str "abc")) in
  let w1 := (CryptoWorkerManager.execute (CryptoWorkerManager.new 2) 2
               (str "hashData") data 30000).2 in
  CryptoWorkerManager.handleWorkerMessage (CryptoWorkerManager.timeoutFires w1 1)
    (CryptoWorker.Reply 0 (inr (CryptoWorker.RText (str "26"))))
    = CryptoWorkerManager.timeoutFires w1 1 /\
  CryptoWorkerManager.promises (CryptoWorkerManager.timeoutFires w1 1) !! 0%nat
    = Some (CryptoWorkerManager.Rejected
              (CryptoWorkerManager.Error (str "Operation timeout"))).
Proof.
  intros data w1.
  apply (late_reply_is_dropped (H := Host.reference) w1 1%nat
           (CryptoWorkerManager.mkTimer 0 0 30000)
           (inr (CryptoWorker.RText (str "26")))).
  - vm_compute. reflexivity.
  - vm_compute. reflexivity.
Defined.

Section SessionFacts.
Import SessionManager.

Implicit Types (s : SessionManager.t).

Ltac map_hyps :=
  repeat match goal with
  | H : <[_ := _]> _ !! _ = Some _ |- _ =>
      apply lookup_insert_Some in H as [[<- H]|[? H]]
  | H : delete _ _ !! _ = Some _ |- _ =>
      apply lookup_delete_Some in H as [? H]
  | H : (_, _) = (_, _) |- _ => injection H as <- <-
  | H : Some _ = Some _ |- _ => injection H as <-
  end.

Lemma new_consistent timeoutMs now : consistent (new timeoutMs now).
Proof. split; cbn; intros; done. Qed.

Lemma consistent_tracked s : consistent s -> tracked s.
Proof.
  intros [Ha Hb Hc Hd]. split; [|done].
  intros h [|] due Hh; apply Hb in Hh as [_ Hh]; [right; tauto|by left].
Qed.

Lemma inactive_no_timers s :
  consistent s -> isActive s = false -> timers s = ∅.
Proof.
  intros [_ Hb _ _] Hact. apply map_empty. intros h.
  destruct (timers s !! h) as [[kind due]|] eqn:E; [|done].
  apply Hb in E as [E _]. congruence.
Qed.

(** An active session that resets its timers has them as the fields say,
    whatever timers it had before. *)
Lemma resetTimeout_active s now :
  isActive s = true -> tracked s -> consistent (resetTimeout s now).
Proof.
  intros Hact (Hb & Hc & Hd). unfold resetTimeout.
  destruct s as [ms la tid wid ft fw act wt ah tm nt ls nh cs]; cbn in *.
  subst act; cbn.
  assert (Hgone : forall h kind due, tm !! h = Some (kind, due) ->
            tid <> Some h -> wid <> Some h -> False).
  { intros h kind due Hh Ht Hw. apply Hb in Hh as [Hh|Hh]; congruence. }
  destruct tid as [t0|], wid as [w0|], fw as [g|]; cbn;
    try destruct (wt <? ms) eqn:E; cbn;
    split; cbn; intros; map_hyps;
    solve [ done
          | exfalso; eapply Hgone; eauto; congruence
          | eexists; split; [reflexivity|]; by rewrite lookup_insert_eq
          | lia
          | pose proof (Hd _ eq_refl); lia
          | pose proof (Hc _ eq_refl); lia ].
Qed.

Lemma resetTimeout_consistent s now :
  consistent s -> consistent (resetTimeout s now).
Proof.
  intros Hs. destruct (isActive s) eqn:E.
  - apply resetTimeout_active; [done|by apply consistent_tracked].
  - unfold resetTimeout. by rewrite E.
Qed.

Lemma stop_consistent s : tracked s -> consistent (stop s).
Proof.
  intros (Hb & Hc & Hd). unfold stop.
  destruct s as [ms la tid wid ft fw act wt ah tm nt ls nh cs]; cbn in *.
  assert (Hgone : forall h kind due, tm !! h = Some (kind, due) ->
            tid <> Some h -> wid <> Some h -> False).
  { intros h kind due Hh Ht Hw. apply Hb in Hh as [Hh|Hh]; congruence. }
  destruct tid as [t0|], wid as [w0|], ah as [a|]; cbn;
    split; cbn; intros; map_hyps;
    solve [ done | exfalso; eapply Hgone; eauto; congruence ].
Qed.

Lemma stop_inactive s : isActive (stop s) = false.
Proof.
  unfold stop. destruct s as [ms la tid wid ft fw act wt ah tm nt ls nh cs]; cbn.
  by destruct tid, wid, ah.
Qed.

Lemma stop_calls s : calls (stop s) = calls s.
Proof.
  unfold stop. destruct s as [ms la tid wid ft fw act wt ah tm nt ls nh cs]; cbn.
  by destruct tid, wid, ah.
Qed.

Lemma start_consistent s f g now :
  consistent s -> consistent (start s f g now).
Proof.
  intros Hs. unfold start. apply resetTimeout_active; [done|].
  by apply consistent_tracked in Hs.
Qed.

Lemma setTimeout_consistent s ms now :
  consistent s -> consistent (setTimeout s ms now).
Proof.
  intros Hs. unfold setTimeout. cbn [isActive set_timeoutMs].
  destruct (isActive s) eqn:E.
  - apply resetTimeout_active; [done|]. by apply consistent_tracked in Hs.
  - pose proof (inactive_no_timers s Hs E) as Hno.
    destruct Hs as [Ha Hb Hc Hd]. split; cbn; try done.
    + intros; congruence.
    + intros h kind due Hh. rewrite Hno in Hh. by rewrite lookup_empty in Hh.
Qed.

Lemma activity_consistent s now : consistent s -> consistent (activity s now).
Proof.
  unfold activity. generalize (listeners s). intros l. revert s.
  induction l as [|a l IH]; intros s Hs; [done|]. cbn [fold_left].
  apply IH. by apply resetTimeout_consistent.
Qed.

Lemma set_calls_tracked l s : tracked s -> tracked (set_calls l s).
Proof. done. Qed.

Lemma invoke_tracked c f s : tracked s -> tracked (invoke c f s).
Proof.
  intros Hs. unfold invoke. destruct (callsStop f); [|done].
  apply consistent_tracked, stop_consistent. done.
Qed.

Lemma delete_tracked h s :
  tracked s -> tracked (set_timers (delete h (timers s)) s).
Proof.
  intros (Hb & Hc & Hd). split; [|done]. cbn. intros h' kind due Hh.
  apply lookup_delete_Some in Hh as [_ Hh]. eauto.
Qed.

(** A callback leaves a consistent session consistent. *)
Lemma invoke_consistent c f s : consistent s -> consistent (invoke c f s).
Proof.
  intros Hs. unfold invoke. destruct (callsStop f).
  - apply stop_consistent. by apply consistent_tracked in Hs.
  - destruct Hs as [Ha Hb Hc Hd]. by split.
Qed.

Lemma fire_consistent s h now : consistent s -> consistent (fire s h now).
Proof.
  intros Hs. unfold fire.
  destruct (timers s !! h) as [[kind due]|] eqn:Hh; [|done].
  destruct (now <? due); [done|].
  destruct kind.
  - assert (Hs' : consistent (set_timers (delete h (timers s)) s)).
    { destruct Hs as [Ha Hb Hc Hd]. split; cbn; try done.
      - intros Hact. destruct (Ha Hact) as (h0 & Hid & Hh0).
        exists h0. split; [done|]. rewrite lookup_delete_ne; [done|].
        intros ->. congruence.
      - intros h' kind due' Hh'. apply lookup_delete_Some in Hh' as [_ Hh'].
        by apply Hb. }
    cbn [onWarning set_timers]. destruct (onWarning s) as [g|]; [|done].
    by apply invoke_consistent.
  - apply stop_consistent.
    pose proof (delete_tracked h s (consistent_tracked s Hs)) as Ht.
    cbn [onTimeout set_timers]. destruct (onTimeout s) as [f|]; [|done].
    by apply invoke_tracked.
Qed.

Lemma step_consistent s e : consistent s -> consistent (step s e).
Proof.
  intros Hs. destruct e; cbn [step].
  - by apply start_consistent.
  - by apply stop_consistent, consistent_tracked.
  - by apply resetTimeout_consistent.
  - by apply resetTimeout_consistent.
  - by apply setTimeout_consistent.
  - by apply activity_consistent.
  - by apply fire_consistent.
Qed.

Lemma steps_consistent s events : consistent s -> consistent (steps s events).
Proof.
  unfold steps. revert s. induction events as [|e events IH]; intros s Hs; [done|].
  cbn [fold_left]. by apply IH, step_consistent.
Qed.

(** Whatever is done with a session, its timers follow its fields: while it
    is not active no timer is pending; while it is active its timeout timer
    is pending, due one timeout after the last activity, and the only other
    timer that can be pending is the warning timer, due one warning time
    before that. *)
Theorem session_timers_follow_activity timeoutMs0 now0 events :
  let s := steps (new timeoutMs0 now0) events in
  (isActive s = false -> timers s = ∅) /\
  (isActive s = true ->
     exists h,
       timeoutId s = Some h /\
       timers s !! h = Some (TimeoutTimer, lastActivity s + delayOf (timeoutMs s)) /\
       forall h' kind due, timers s !! h' = Some (kind, due) -> h' <> h ->
         kind = WarningTimer /\ warningId s = Some h' /\
         due = lastActivity s + delayOf (timeoutMs s - warningTime s)).
Proof.
  cbn zeta.
  pose proof (steps_consistent _ events (new_consistent timeoutMs0 now0)) as Hs.
  split; [by apply inactive_no_timers|].
  intros Hact. destruct Hs as [Ha Hb _ _].
  destruct (Ha Hact) as (h & Hid & Hh). exists h. split; [done|]. split; [done|].
  intros h' kind due Hh' Hne. apply Hb in Hh' as [_ Hk].
  destruct kind; [tauto|]. congruence.
Qed.

Lemma delayOf_small ms : 0 <= ms < 2147483648 -> delayOf ms = ms.
Proof.
  intros Hms. unfold delayOf, toInt32.
  rewrite Z.mod_small by lia. lia.
Qed.

(** For a timeout that a timer can hold, that is from 0 to 2^31 - 1
    milliseconds, [getTimeUntilTimeout] is the time left until the timeout
    timer is due, and zero once it is overdue. *)
Theorem getTimeUntilTimeout_is_time_to_timer timeoutMs0 now0 events h kind due now :
  let s := steps (new timeoutMs0 now0) events in
  0 <= timeoutMs s < 2147483648 ->
  timeoutId s = Some h ->
  timers s !! h = Some (kind, due) ->
  getTimeUntilTimeout s now = Z.max 0 (due - now).
Proof.
  cbn zeta. intros Hms Hid Hh.
  pose proof (steps_consistent _ events (new_consistent timeoutMs0 now0)) as Hs.
  destruct Hs as [Ha Hb _ _].
  destruct (Hb _ _ _ Hh) as [Hact _]. destruct (Ha Hact) as (h0 & Hid0 & Hh0).
  assert (h0 = h) as -> by congruence.
  rewrite Hh in Hh0. injection Hh0 as -> ->.
  unfold getTimeUntilTimeout. rewrite Hact. cbn [negb].
  rewrite delayOf_small by done. lia.
Qed.

(** When the timeout timer comes due the session ends: the timeout
    callback, if there is one, is called once, the session is no longer
    active and no timer is left pending, the warning timer included. *)
Theorem timeout_ends_session timeoutMs0 now0 events h kind due now :
  let s := steps (new timeoutMs0 now0) events in
  timeoutId s = Some h ->
  timers s !! h = Some (kind, due) ->
  due <= now ->
  let s' := fire s h now in
  isActive s' = false /\ timers s' = ∅ /\
  calls s' = calls s ++ match onTimeout s with
                        | Some f => [CalledTimeout f]
                        | None => []
                        end.
Proof.
  cbn zeta. intros Hid Hh Hdue.
  pose proof (steps_consistent _ events (new_consistent timeoutMs0 now0)) as Hs.
  set (s := steps (new timeoutMs0 now0) events) in *.
  pose proof (fire_consistent s h now Hs) as Hs'.
  assert (kind = TimeoutTimer) as ->.
  { destruct Hs as [Ha Hb _ _].
    destruct (Hb _ _ _ Hh) as [Hact _]. destruct (Ha Hact) as (h0 & Hid0 & Hh0).
    congruence. }
  assert (Hact : isActive (fire s h now) = false).
  { unfold fire. rewrite Hh. destruct (now <? due) eqn:E; [lia|]. apply stop_inactive. }
  split; [done|]. split; [by apply inactive_no_timers|].
  unfold fire. rewrite Hh. destruct (now <? due) eqn:E; [lia|].
  rewrite stop_calls. cbn [onTimeout set_timers].
  destruct (onTimeout s) as [f|]; [|by rewrite app_nil_r].
  unfold invoke. destruct (callsStop f); [by rewrite stop_calls|done].
Qed.

Lemma resetTimeout_inactive s now : isActive s = false -> resetTimeout s now = s.
Proof. intros Hs. unfold resetTimeout. by rewrite Hs. Qed.

Lemma activity_inactive s now : isActive s = false -> activity s now = s.
Proof.
  intros Hs. unfold activity. induction (listeners s) as [|a l IH]; [done|].
  cbn [fold_left]. by rewrite resetTimeout_inactive.
Qed.

Lemma stop_timers_empty s : timers s = ∅ -> timers (stop s) = ∅.
Proof.
  unfold stop. destruct s as [ms la tid wid ft fw act wt ah tm nt ls nh cs]; cbn.
  intros ->. destruct tid, wid, ah; cbn; by rewrite ?delete_empty.
Qed.

(** A session that is not active stays so until [start] is called: no
    activity on the page, no [extend], [resetTimeout], [setTimeout] or
    [stop] and no timer makes it active, sets a timer or calls a
    callback. *)
Theorem stopped_session_stays_stopped s events :
  isActive s = false ->
  timers s = ∅ ->
  forallb (fun e => negb (isStart e)) events = true ->
  let s' := steps s events in
  isActive s' = false /\ timers s' = ∅ /\ calls s' = calls s.
Proof.
  cbn zeta. unfold steps. revert s.
  induction events as [|e events IH]; intros s Hact Hno Hev; [done|].
  cbn [forallb] in Hev. apply andb_true_iff in Hev as [He Hev]. cbn [fold_left].
  assert (Hstep : isActive (step s e) = false /\ timers (step s e) = ∅ /\
                  calls (step s e) = calls s).
  { destruct e; cbn [step isStart negb] in *; try done.
    - split; [apply stop_inactive|]. split; [by apply stop_timers_empty|apply stop_calls].
    - by rewrite resetTimeout_inactive.
    - unfold extend. by rewrite resetTimeout_inactive.
    - unfold setTimeout. cbn [isActive set_timeoutMs]. by rewrite Hact.
    - by rewrite activity_inactive.
    - unfold fire. rewrite Hno, lookup_empty. done. }
  destruct Hstep as (Hact' & Hno' & Hcalls).
  destruct (IH _ Hact' Hno' Hev) as (? & ? & ?). repeat split; congruence.
Qed.


End SessionFacts.

Example getTimeUntilTimeout_is_time_to_timer_witness :
  let lock := SessionManager.mkCallback 0 true in
  let warn := SessionManager.mkCallback 1 false in
  SessionManager.getTimeUntilTimeout
    (SessionManager.steps (SessionManager.new 900000 0)
       [SessionManager.Start (Some lock) (Some warn) 1000]) 5000
  = Z.max 0 (901000 - 5000).
Proof.
  intros lock warn.
  apply (getTimeUntilTimeout_is_time_to_timer 900000 0
           [SessionManager.Start (Some lock) (Some warn) 1000]
           2%positive SessionManager.TimeoutTimer 901000 5000).
  - vm_compute. split; [discriminate|reflexivity].
  - vm_compute. reflexivity.
  - vm_compute. reflexivity.
Defined.

Example timeout_ends_session_witness :
  let lock := SessionManager.mkCallback 0 true in
  let warn := SessionManager.mkCallback 1 false in
  let s := SessionManager.steps (SessionManager.new 900000 0)
             [SessionManager.Start (Some lock) (Some warn) 1000;
              SessionManager.Activity 2000] in
  let s' := SessionManager.fire s 4%positive 902000 in
  SessionManager.isActive s' = false /\ SessionManager.timers s' = ∅ /\
  SessionManager.calls s'
  = SessionManager.calls s ++ match SessionManager.onTimeout s with
                              | Some f => [SessionManager.CalledTimeout f]
                              | None => []
                              end.
Proof.
  intros lock warn.
  apply (timeout_ends_session 900000 0
           [SessionManager.Start (Some lock) (Some warn) 1000;
            SessionManager.Activity 2000]
           4%positive SessionManager.TimeoutTimer 902000 902000).
  - vm_compute. reflexivity.
  - vm_compute. reflexivity.
  - lia.
Defined.

Example stopped_session_stays_stopped_witness :
  let s := SessionManager.steps (SessionManager.new 900000 0)
             [SessionManager.Start None None 1; SessionManager.Start None None 2;
              SessionManager.Stop] in
  let s' := SessionManager.steps s
              [SessionManager.Activity 5; SessionManager.Extend 6;
               SessionManager.SetTimeout 1000 7; SessionManager.Fire 1 8;
               SessionManager.Stop; SessionManager.ResetTimeout 9] in
  SessionManager.isActive s' = false /\ SessionManager.timers s' = ∅ /\
  SessionManager.calls s' = SessionManager.calls s.
Proof.
  intros s.
  apply (stopped_session_stays_stopped s
           [SessionManager.Activity 5; SessionManager.Extend 6;
            SessionManager.SetTimeout 1000 7; SessionManager.Fire 1 8;
            SessionManager.Stop; SessionManager.ResetTimeout 9]);
    vm_compute; reflexivity.
Defined.
